(** * Adjoint-matching loss of [models/flow_module_adjointmatching.py]

    A shallow embedding of [FlowModule.solve_adjoint_state] and of the blocks
    of [FlowModule.model_step], together with the tensor operations of the
    numeric engine they call (broadcasting, reductions, [einsum], [cdist]).

    Numbers.  A tensor entry is a [num]: a real number or one of the three
    special values of floating-point arithmetic (the two infinities and NaN).
    Finite arithmetic is exact: rounding, overflow and the sign of zero are
    not modelled.  The special values follow the IEEE rules the source relies
    on ([x / 0], [0 * inf], NaN propagation, comparisons with NaN, [clamp]).

    Tensors.  A tensor is a shape and an accessor from a multi-index to its
    entry, so that [expand], [None]-indexing and broadcasting are views, as
    they are in the engine.  Every operation that the engine refuses on
    incompatible shapes returns [Err ShapeError] here.

    Differentiation.  [torch.autograd.grad(curr_drift.sum(), curr_x)] either
    raises or returns a tensor of the shape of [curr_x].  It raises when
    [curr_x] carries no gradient.  In the first pass of the loop [curr_x] is
    [x_t.clone()], and whether the engine can differentiate depends on the
    caller (on [x_t] and on the drift); this is supplied with the drift, as
    an optional derivative.  From the second pass on [curr_x] is the tensor
    rebuilt under [torch.no_grad()] at the end of the previous pass, which
    carries no gradient whatever the caller did; the loop state records
    this.

    Collaborators.  The network, [all_atom.to_atom37],
    [so3_utils.calc_rot_vf] and the derivatives of the two drift closures
    are parameters of [model_step].

    Beyond the solver and [model_step], the embedding covers two blocks of
    [training_step] (the self-conditioning translations and the motif size)
    and the two lazily created directories, [checkpoint_dir] and
    [inference_dir], whose cached attributes are passed explicitly.

    The file has two parts: the embedding, then the properties. *)

From Stdlib Require Import Reals Lra Lia List Arith Bool.
Import ListNotations.

Set Implicit Arguments.

(* ================================================================= *)
(** ** Scalars *)

Module Num.

Inductive num : Type :=
| Fin (x : R)
| PInf
| NInf
| NaN.

Local Open Scope R_scope.

Definition zero : num := Fin 0.
Definition one : num := Fin 1.

Definition is_nan (a : num) : bool :=
  match a with NaN => true | _ => false end.

Definition is_finite (a : num) : bool :=
  match a with Fin _ => true | _ => false end.

Definition Rltb (x y : R) : bool := if Rlt_dec x y then true else false.
Definition Reqb (x y : R) : bool := if Req_dec_T x y then true else false.

(** The infinity with the sign of [x], for [x <> 0]. *)
Definition inf_of_sign (x : R) : num := if Rltb 0 x then PInf else NInf.

Definition neg (a : num) : num :=
  match a with
  | Fin x => Fin (- x)
  | PInf => NInf
  | NInf => PInf
  | NaN => NaN
  end.

Definition add (a b : num) : num :=
  match a, b with
  | NaN, _ | _, NaN => NaN
  | Fin x, Fin y => Fin (x + y)
  | PInf, NInf | NInf, PInf => NaN
  | PInf, _ | _, PInf => PInf
  | NInf, _ | _, NInf => NInf
  end.

Definition sub (a b : num) : num := add a (neg b).

(** [inf * x] for a finite [x]: NaN at zero, otherwise the signed infinity. *)
Definition mul_inf (pos : bool) (x : R) : num :=
  if Reqb x 0 then NaN
  else if Rltb 0 x then (if pos then PInf else NInf)
  else (if pos then NInf else PInf).

Definition mul (a b : num) : num :=
  match a, b with
  | NaN, _ | _, NaN => NaN
  | Fin x, Fin y => Fin (x * y)
  | PInf, Fin y => mul_inf true y
  | NInf, Fin y => mul_inf false y
  | Fin x, PInf => mul_inf true x
  | Fin x, NInf => mul_inf false x
  | PInf, PInf | NInf, NInf => PInf
  | PInf, NInf | NInf, PInf => NInf
  end.

Definition div (a b : num) : num :=
  match a, b with
  | NaN, _ | _, NaN => NaN
  | Fin x, Fin y =>
      if Reqb y 0 then (if Reqb x 0 then NaN else inf_of_sign x)
      else Fin (x / y)
  | Fin _, PInf | Fin _, NInf => Fin 0
  | PInf, Fin y => if Rltb y 0 then NInf else PInf
  | NInf, Fin y => if Rltb y 0 then PInf else NInf
  | _, _ => NaN
  end.

Definition sqrt (a : num) : num :=
  match a with
  | Fin x => if Rltb x 0 then NaN else Fin (R_sqrt.sqrt x)
  | PInf => PInf
  | NInf => NaN
  | NaN => NaN
  end.

(** [a < b]; every comparison with NaN is false. *)
Definition ltb (a b : num) : bool :=
  match a, b with
  | NaN, _ | _, NaN => false
  | Fin x, Fin y => Rltb x y
  | NInf, NInf | PInf, _ => false
  | NInf, _ => true
  | Fin _, PInf => true
  | Fin _, NInf => false
  end.

Definition gtb (a b : num) : bool := ltb b a.

(** A boolean tensor entry converted with [.float()]. *)
Definition of_bool (b : bool) : num := if b then one else zero.

(** [torch.clamp(a, max=m)]: NaN stays NaN. *)
Definition clamp_max (m : R) (a : num) : num :=
  match a with
  | NaN => NaN
  | _ => if ltb (Fin m) a then Fin m else a
  end.

(** Python's [n] of an [int] used as a float. *)
Definition of_nat (n : nat) : num := Fin (INR n).

Definition sum_list (l : list num) : num := fold_left add l zero.

End Num.

Import Num.

Declare Scope num_scope.
Delimit Scope num_scope with num.
Infix "+" := add : num_scope.
Infix "-" := sub : num_scope.
Infix "*" := mul : num_scope.
Infix "/" := div : num_scope.

(* ================================================================= *)
(** ** Errors *)

Inductive error : Type :=
| ShapeError                (* the engine's shape/broadcast RuntimeError *)
| GradError                 (* the RuntimeError of torch.autograd.grad on a
                               tensor that carries no gradient *)
| EmptyBatch                (* ValueError('Empty batch encountered') *)
| NaNLoss.                  (* ValueError('NaN loss encountered') *)

Inductive result (A : Type) : Type :=
| Ok (a : A)
| Err (e : error).

Arguments Ok {A} a.
Arguments Err {A} e.

Definition bind {A B : Type} (m : result A) (k : A -> result B) : result B :=
  match m with
  | Ok a => k a
  | Err e => Err e
  end.

Notation "x <- m ;; k" := (bind m (fun x => k))
  (at level 61, m at next level, right associativity).


(* ================================================================= *)
(** ** Tensors *)

Record tensor : Type := mkT {
  shape : list nat;
  get : list nat -> num
}.

Definition rank (a : tensor) : nat := length (shape a).

Definition numel (s : list nat) : nat := fold_right Nat.mul 1%nat s.

(** All multi-indices of a shape, in row-major order. *)
Fixpoint indices (s : list nat) : list (list nat) :=
  match s with
  | [] => [[]]
  | d :: s' => flat_map (fun i => map (cons i) (indices s')) (seq 0 d)
  end.

(** The entries of a tensor, in row-major order. *)
Definition entries (a : tensor) : list num := map (get a) (indices (shape a)).

(** A Python float, or a zero-dimensional tensor. *)
Definition scalar (x : num) : tensor := mkT [] (fun _ => x).

(** *** Broadcasting

    Shapes are aligned from the right; two sizes are compatible when they are
    equal or one of them is 1. *)

(** The size of a broadcast axis. *)
Definition bdim (d1 d2 : nat) : option nat :=
  if Nat.eqb d1 d2 then Some d1
  else if Nat.eqb d1 1 then Some d2
  else if Nat.eqb d2 1 then Some d1
  else None.

Fixpoint bshape_rev (s1 s2 : list nat) : option (list nat) :=
  match s1, s2 with
  | [], s => Some s
  | s, [] => Some s
  | d1 :: r1, d2 :: r2 =>
      match bshape_rev r1 r2, bdim d1 d2 with
      | Some r, Some d => Some (d :: r)
      | _, _ => None
      end
  end.

Definition broadcast_shapes (s1 s2 : list nat) : option (list nat) :=
  option_map (@rev nat) (bshape_rev (rev s1) (rev s2)).

(** The index into an operand of shape [s] read at index [idx] of the
    broadcast result: the trailing [length s] components of [idx], with 0 on
    the axes of size 1. *)
Definition bsel (d i : nat) : nat := if Nat.eqb d 1 then 0%nat else i.

Fixpoint bidx_rev (s idx : list nat) : list nat :=
  match s, idx with
  | d :: s', i :: idx' => bsel d i :: bidx_rev s' idx'
  | _, _ => []
  end.

Definition bidx (s idx : list nat) : list nat :=
  rev (bidx_rev (rev s) (rev idx)).

(** [f(a, b)] elementwise with broadcasting. *)
Definition map2 (f : num -> num -> num) (a b : tensor) : result tensor :=
  match broadcast_shapes (shape a) (shape b) with
  | Some s =>
      Ok (mkT s (fun idx => f (get a (bidx (shape a) idx))
                              (get b (bidx (shape b) idx))))
  | None => Err ShapeError
  end.

(** [f(a)] elementwise; also a tensor combined with a Python float or with a
    zero-dimensional tensor, which broadcasts against every shape. *)
Definition map1 (f : num -> num) (a : tensor) : tensor :=
  mkT (shape a) (fun idx => f (get a idx)).

Definition tadd := map2 add.
Definition tsub := map2 sub.
Definition tmul := map2 mul.
Definition tdiv := map2 div.

(** [a ** 2] *)
Definition square (a : tensor) : tensor := map1 (fun x => mul x x) a.

(** [a[..., None]] *)
Definition unsqueeze_last (a : tensor) : tensor :=
  mkT (shape a ++ [1%nat]) (fun idx => get a (removelast idx)).

(** [torch.ones_like(a)] *)
Definition ones_like (a : tensor) : tensor := mkT (shape a) (fun _ => one).

(** [s.expand_as(t)] for a zero-dimensional [s]. *)
Definition expand_as (s : num) (t : tensor) : tensor :=
  mkT (shape t) (fun _ => s).

(** *** Reductions *)

(** [torch.sum(a, dim=-1)]; a zero-dimensional tensor is returned as it is. *)
Definition sum_last (a : tensor) : tensor :=
  match rev (shape a) with
  | [] => a
  | d :: rs =>
      mkT (rev rs)
          (fun idx => sum_list (map (fun k => get a (idx ++ [k])) (seq 0 d)))
  end.

(** [torch.sum(a, dim=(-1, -2))] and [torch.sum(a, dim=(-1, -2, -3))]: the
    engine refuses an axis the tensor does not have. *)
Definition sum_last2 (a : tensor) : result tensor :=
  if Nat.leb 2 (rank a) then Ok (sum_last (sum_last a)) else Err ShapeError.

Definition sum_last3 (a : tensor) : result tensor :=
  if Nat.leb 3 (rank a) then Ok (sum_last (sum_last (sum_last a)))
  else Err ShapeError.

(** Size of the last axis (1 for a zero-dimensional tensor). *)
Definition last_dim (a : tensor) : nat := last (shape a) 1%nat.

(** [a.mean(dim=-1)] *)
Definition mean_last (a : tensor) : tensor :=
  map1 (fun x => div x (of_nat (last_dim a))) (sum_last a).

(** [a.mean(dim=(-1, -2))] *)
Definition mean_last2 (a : tensor) : result tensor :=
  s <- sum_last2 a ;;
  Ok (map1 (fun x => div x (of_nat (last_dim a * last_dim (sum_last a)))) s).

(** [torch.norm(a, dim=-1)]: the Euclidean norm along the last axis. *)
Definition norm_last (a : tensor) : tensor :=
  map1 sqrt (sum_last (square a)).

(** [torch.any(p(a))] for an elementwise test [p]. *)
Definition any (p : num -> bool) (a : tensor) : bool :=
  existsb p (entries a).

(** *** Indexing and reshaping *)

(** A slice along axis 2, [a[:, :, start : start + len d2]], where [len]
    gives the length of the slice from the size of the axis. *)
Definition slice_axis2 (start : nat) (len : nat -> nat) (a : tensor)
  : result tensor :=
  match shape a with
  | d0 :: d1 :: d2 :: r =>
      Ok (mkT (d0 :: d1 :: len d2 :: r)
              (fun idx =>
                 match idx with
                 | i :: j :: k :: r' => get a (i :: j :: (start + k)%nat :: r')
                 | _ => NaN
                 end))
  | _ => Err ShapeError
  end.

(** [a[:, :, :3]], [a[:, :, 1:]] and [a[:, :, :-1]] *)
Definition first3_axis2 := slice_axis2 0 (fun d => Nat.min 3 d).
Definition tail_axis2 := slice_axis2 1 (fun d => (d - 1)%nat).
Definition init_axis2 := slice_axis2 0 (fun d => (d - 1)%nat).

(** Row-major position of an index, and back. *)
Fixpoint flat_index (s idx : list nat) : nat :=
  match s, idx with
  | _ :: s', i :: idx' => (i * numel s' + flat_index s' idx')%nat
  | _, _ => 0%nat
  end.

Fixpoint unflat (s : list nat) (n : nat) : list nat :=
  match s with
  | [] => []
  | _ :: s' => (n / numel s')%nat :: unflat s' (n mod numel s')%nat
  end.

(** [a.reshape(batch_size, -1, 3)] with [batch_size = a.shape[0]]. *)
Definition reshape_b_m1_3 (a : tensor) : result tensor :=
  match shape a with
  | b :: _ =>
      let n := numel (shape a) in
      if Nat.eqb (b * 3) 0 then Err ShapeError
      else if Nat.eqb (n mod (b * 3)) 0 then
        let s := [b; (n / (b * 3))%nat; 3%nat] in
        Ok (mkT s (fun idx => get a (unflat (shape a) (flat_index s idx))))
      else Err ShapeError
  | [] => Err ShapeError
  end.

(** [a[0, 0]] of a two-dimensional tensor. *)
Definition item00 (a : tensor) : result num :=
  match shape a with
  | [d0; d1] =>
      if Nat.ltb 0 d0 && Nat.ltb 0 d1 then Ok (get a [0%nat; 0%nat])
      else Err ShapeError
  | _ => Err ShapeError
  end.

(** [torch.cdist(a, a)] for a batch of point sets [a : (B, P, M)]: the matrix
    of Euclidean distances between the points of each set. *)
Definition cdist_self (a : tensor) : result tensor :=
  match shape a with
  | [b; p; m] =>
      Ok (mkT [b; p; p]
              (fun idx =>
                 match idx with
                 | [e; i; j] =>
                     sqrt (sum_list
                             (map (fun c =>
                                     let d := sub (get a [e; i; c])
                                                  (get a [e; j; c]) in
                                     mul d d)
                                  (seq 0 m)))
                 | _ => NaN
                 end))
  | _ => Err ShapeError
  end.

(** [torch.einsum('...ijm,...j->...i', g, a)].

    The three letters of the first operand name its last three axes and the
    ellipsis the axes before them; the letter of the second operand names its
    last axis.  The two ellipses broadcast against each other, the two sizes
    of [j] must be equal or 1, and [j] and [m] are summed. *)
Definition split_last3 (s : list nat) : option (list nat * nat * nat * nat) :=
  match rev s with
  | m :: j :: i :: e => Some (rev e, i, j, m)
  | _ => None
  end.

Definition split_last1 (s : list nat) : option (list nat * nat) :=
  match rev s with
  | j :: e => Some (rev e, j)
  | _ => None
  end.

Definition einsum_ijm_j (g a : tensor) : result tensor :=
  match split_last3 (shape g), split_last1 (shape a) with
  | Some (eg, ni, nj, nm), Some (ea, nj') =>
      match broadcast_shapes eg ea, broadcast_shapes [nj] [nj'] with
      | Some e, Some [jj] =>
          Ok (mkT (e ++ [ni])
                  (fun idx =>
                     let ell := removelast idx in
                     let i := last idx 0%nat in
                     sum_list
                       (flat_map
                          (fun j =>
                             map (fun m =>
                                    mul (get g (bidx eg ell
                                                  ++ [i; hd 0%nat (bidx [nj] [j]); m]))
                                        (get a (bidx ea ell
                                                  ++ [hd 0%nat (bidx [nj'] [j])])))
                                 (seq 0 nm))
                          (seq 0 jj))))
      | _, _ => Err ShapeError
      end
  | _, _ => Err ShapeError
  end.

(* ================================================================= *)
(** ** The adjoint solver: [FlowModule.solve_adjoint_state] *)

(** [torch.linspace(a, b, n)] *)
Definition linspace (a b : R) (n : nat) : list num :=
  map (fun k => Fin (a + INR k * ((b - a) / INR (n - 1)))%R) (seq 0 n).

(** The state of the backward loop: the costate [a_t], the shadow forward
    state [curr_x], whether [curr_x] is still the clone of [x_t] (and not a
    tensor rebuilt under [torch.no_grad()]), and the list
    [adjoint_states]. *)
Record loop_state : Type := mkLoop {
  a_t : tensor;
  curr_x : tensor;
  curr_x_is_clone : bool;
  adjoint_states : list tensor
}.

Section Solver.

(** The drift callable.  It may fail on the shapes it is given. *)
Variable drift : tensor -> tensor -> result tensor.

(** The derivative of the drift, as the engine sees it in the first pass.
    [drift_grad x t mask] is [None] when
    [torch.autograd.grad(curr_drift.sum(), curr_x)] raises on [x_t.clone()]:
    [x_t] carries no gradient, or the output of the drift is not connected
    to it.  Otherwise it is [Some g], where [g idx] is the entry at index
    [idx] of the gradient, the partial derivative of the sum of all entries
    of [curr_drift = drift(x, t) * mask[..., None]] with respect to the
    entry [idx] of [x]. *)
Variable drift_grad :
  tensor -> tensor -> tensor -> option (list nat -> num).

(** [torch.autograd.grad(curr_drift.sum(), curr_x, ...)[0]].  The gradient
    of a scalar with respect to [curr_x] has the shape of [curr_x].  On a
    [curr_x] that was rebuilt under [torch.no_grad()] the engine raises. *)
Definition autograd_grad_sum (is_clone : bool) (x t mask : tensor)
  : result tensor :=
  if is_clone then
    match drift_grad x t mask with
    | Some g => Ok (mkT (shape x) g)
    | None => Err GradError
    end
  else Err GradError.

(** One pass through the body of the [for] loop, at grid time [t_curr]. *)
Definition adjoint_step (t mask : tensor) (dt : num)
    (st : loop_state) (t_curr : num) : result loop_state :=
  let t_curr := expand_as t_curr t in
  d <- drift (curr_x st) t_curr ;;
  curr_drift <- tmul d (unsqueeze_last mask) ;;
  grad_b <- autograd_grad_sum (curr_x_is_clone st) (curr_x st) t_curr mask ;;
  e <- einsum_ijm_j grad_b (a_t st) ;;
  a1 <- tsub (a_t st) (map1 (mul dt) e) ;;
  a2 <- tmul a1 (unsqueeze_last mask) ;;
  (* with torch.no_grad(): *)
  let dx := map1 (mul dt) curr_drift in
  x' <- tadd (curr_x st) dx ;;
  Ok (mkLoop a2 x' false (adjoint_states st ++ [a2])).

Fixpoint adjoint_loop (t mask : tensor) (dt : num)
    (ts : list num) (st : loop_state) : result loop_state :=
  match ts with
  | [] => Ok st
  | t_curr :: ts' =>
      st' <- adjoint_step t mask dt st t_curr ;;
      adjoint_loop t mask dt ts' st'
  end.

Definition timesteps : list num := linspace 1 0 20.

Definition dt : num := sub (nth 1 timesteps NaN) (nth 0 timesteps NaN).

Definition solve_adjoint_state (x_t t mask : tensor) : result tensor :=
  a0 <- tmul (map1 neg (ones_like x_t)) (unsqueeze_last mask) ;;
  st <- adjoint_loop t mask dt (removelast timesteps)
          (mkLoop a0 x_t true [a0]) ;;
  Ok (last (adjoint_states st) a0).

End Solver.

(* ================================================================= *)
(** ** The blocks of [FlowModule.model_step] *)

(** [self._exp_cfg.training] *)
Record training_cfg : Type := mkCfg {
  translation_loss_weight : R;
  rotation_loss_weights : R;
  aux_loss_weight : R
}.

(** The fields of [noisy_batch] that [model_step] reads. *)
Record noisy_batch : Type := mkBatch {
  res_mask : tensor;
  diffuse_mask : tensor;
  trans_t : tensor;
  rotmats_t : tensor;
  r3_t : tensor;
  so3_t : tensor;
  trans_1 : tensor;
  rotmats_1 : tensor
}.

(** The returned dictionary. *)
Record loss_record : Type := mkRecord {
  rec_trans_loss : tensor;
  rec_auxiliary_loss : tensor;
  rec_rots_vf_loss : tensor;
  rec_se3_vf_loss : tensor;
  rec_diversity_reward : tensor;
  rec_validity_reward : tensor;
  rec_total_reward : tensor
}.

(** *** Lines 142-144: the effective mask and the empty-batch check *)

Definition loss_mask_of (b : noisy_batch) : result tensor :=
  tmul (res_mask b) (diffuse_mask b).

Definition empty_batch (loss_mask : tensor) : bool :=
  any (fun s => ltb s one) (sum_last loss_mask).

(** *** Lines 155-167: the reward *)

Definition bond_lengths (pred_bb_atoms : tensor) : result tensor :=
  hi <- tail_axis2 pred_bb_atoms ;;
  lo <- init_axis2 pred_bb_atoms ;;
  d <- tsub hi lo ;;
  Ok (norm_last d).

Definition valid_bonds (bl : tensor) : tensor :=
  map1 (fun x => of_bool (gtb x (Fin 1) && ltb x (Fin 2))) bl.

Definition validity_reward (pred_bb_atoms : tensor) : result tensor :=
  bl <- bond_lengths pred_bb_atoms ;;
  Ok (mean_last (valid_bonds bl)).

Definition diversity_reward (pred_bb_atoms : tensor) : result tensor :=
  flat_coords <- reshape_b_m1_3 pred_bb_atoms ;;
  pairwise_dists <- cdist_self flat_coords ;;
  mean_last2 pairwise_dists.

Definition combine_reward (diversity validity : tensor) : result tensor :=
  tadd (map1 (mul (Fin 2)) diversity) (map1 (mul (Fin 1)) validity).

Definition reward_of (pred_bb_atoms : tensor) : result tensor :=
  validity <- validity_reward pred_bb_atoms ;;
  diversity <- diversity_reward pred_bb_atoms ;;
  combine_reward diversity validity.

(** *** Lines 176-181: the memoryless noise schedule *)

Definition eta_of (r3_t : tensor) : result tensor :=
  let alpha_t := r3_t in
  let beta_t := map1 (sub (Fin 1)) r3_t in
  let alpha_dot := ones_like r3_t in
  let beta_dot := map1 neg (ones_like r3_t) in
  q <- tdiv alpha_dot alpha_t ;;
  p <- tmul q beta_t ;;
  s <- tsub p beta_dot ;;
  tmul beta_t s.

Definition sigma_of (r3_t : tensor) : result tensor :=
  eta_t <- eta_of r3_t ;;
  Ok (map1 sqrt (map1 (mul (Fin 2)) eta_t)).

(** *** Lines 184-197: the translation drift and the translation loss *)

Definition trans_drift (pred_trans_1 reward : tensor) (x t : tensor)
  : result tensor :=
  n <- tsub pred_trans_1 x ;;
  q <- tdiv n (map1 (sub (Fin 1)) (unsqueeze_last t)) ;;
  tmul q (unsqueeze_last (unsqueeze_last reward)).

(** The masked, normalised and weighted sum of squares of lines 193-196 and
    209-212. *)
Definition masked_mean_square (w : R) (term loss_mask : tensor)
  : result tensor :=
  m <- tmul (square term) (unsqueeze_last loss_mask) ;;
  s <- sum_last2 m ;;
  q <- tdiv (map1 (mul (Fin w)) s) (sum_last loss_mask) ;;
  Ok q.

Definition adjoint_term (vf sigma_t adjoint : tensor) : result tensor :=
  sa <- tmul (unsqueeze_last (unsqueeze_last sigma_t)) adjoint ;;
  tadd vf sa.

Definition trans_loss_of (cfg : training_cfg)
    (trans_vf sigma_t trans_adjoint loss_mask : tensor) : result tensor :=
  trans_adjoint_term <- adjoint_term trans_vf sigma_t trans_adjoint ;;
  l <- masked_mean_square (translation_loss_weight cfg)
         trans_adjoint_term loss_mask ;;
  Ok (map1 (clamp_max 5) l).

(** *** Lines 199-212: the rotation loss (not clamped) *)

Definition rots_vf_loss_of (cfg : training_cfg)
    (rot_vf so3_t rot_adjoint loss_mask : tensor) : result tensor :=
  let rot_sigma_t := map1 sqrt (map1 (mul (Fin 2)) so3_t) in
  rot_adjoint_term <- adjoint_term rot_vf rot_sigma_t rot_adjoint ;;
  masked_mean_square (rotation_loss_weights cfg) rot_adjoint_term loss_mask.

(** *** Lines 215-229: the auxiliary loss *)

(** The guard of the [if]: Python's [and] evaluates [r3_t[0, 0]] only when
    the weight is positive. *)
Definition aux_gate (cfg : training_cfg) (r3_t : tensor) : result bool :=
  if Rltb 0 (aux_loss_weight cfg) then
    t00 <- item00 r3_t ;;
    Ok (gtb t00 (Fin (1 / 2)))
  else Ok false.

Definition bb_atom_loss_of (gt_bb_atoms pred_bb_atoms loss_mask : tensor)
  : result tensor :=
  let loss_denom := map1 (fun x => mul x (Fin 3)) (sum_last loss_mask) in
  d <- tsub gt_bb_atoms pred_bb_atoms ;;
  m <- tmul (square d) (unsqueeze_last (unsqueeze_last loss_mask)) ;;
  s <- sum_last3 m ;;
  tdiv s loss_denom.

Definition aux_body (cfg : training_cfg)
    (gt_bb_atoms pred_bb_atoms loss_mask reward : tensor) : result tensor :=
  bb_atom_loss <- bb_atom_loss_of gt_bb_atoms pred_bb_atoms loss_mask ;;
  a <- tmul (map1 (fun x => mul x (Fin (aux_loss_weight cfg))) bb_atom_loss)
            reward ;;
  Ok (map1 (clamp_max 5) a).

(** [gt] stands for the evaluation of
    [all_atom.to_atom37(trans_1, rotmats_1)[:, :, :3]], which happens only
    inside the [if]. *)
Definition auxiliary_loss_of (cfg : training_cfg) (r3_t : tensor)
    (gt : result tensor) (pred_bb_atoms loss_mask reward : tensor)
  : result tensor :=
  g <- aux_gate cfg r3_t ;;
  if (g : bool) then
    gt_bb_atoms <- gt ;;
    aux_body cfg gt_bb_atoms pred_bb_atoms loss_mask reward
  else Ok (scalar (Fin 0)).

(** *** Lines 231-244: the total, the NaN check and the record *)

Definition se3_vf_loss_of (trans_loss rots_vf_loss auxiliary_loss : tensor)
  : result tensor :=
  s <- tadd trans_loss rots_vf_loss ;;
  tadd s auxiliary_loss.

Definition nan_check (se3_vf_loss : tensor) : result unit :=
  if any is_nan se3_vf_loss then Err NaNLoss else Ok tt.

Definition finish (trans_loss rots_vf_loss auxiliary_loss
                   diversity validity reward : tensor) : result loss_record :=
  se3_vf_loss <- se3_vf_loss_of trans_loss rots_vf_loss auxiliary_loss ;;
  _ <- nan_check se3_vf_loss ;;
  Ok (mkRecord trans_loss auxiliary_loss rots_vf_loss se3_vf_loss
               diversity validity reward).

(** *** [model_step] *)

Section ModelStep.

Variable cfg : training_cfg.

(** The collaborators: the network [self.model], [all_atom.to_atom37],
    [so3_utils.calc_rot_vf], and the derivatives of the two drift closures
    as the engine sees them in the first pass of the solver, given the
    prediction and the reward that the closure captures ([None] when the
    engine refuses, as it does for a state of the batch that carries no
    gradient). *)
Variable model : noisy_batch -> result (tensor * tensor).
Variable to_atom37 : tensor -> tensor -> result tensor.
Variable calc_rot_vf : tensor -> tensor -> result tensor.
Variable trans_drift_grad rot_drift_grad :
  tensor -> tensor -> tensor -> tensor -> tensor -> option (list nat -> num).

Definition rot_drift (pred_rotmats_1 reward : tensor) (r t : tensor)
  : result tensor :=
  v <- calc_rot_vf r pred_rotmats_1 ;;
  tmul v (unsqueeze_last (unsqueeze_last reward)).

Definition model_step (b : noisy_batch) : result loss_record :=
  loss_mask <- loss_mask_of b ;;
  if empty_batch loss_mask then Err EmptyBatch else
  out <- model b ;;
  let pred_trans_1 := fst out in
  let pred_rotmats_1 := snd out in
  atom37 <- to_atom37 pred_trans_1 pred_rotmats_1 ;;
  pred_bb_atoms <- first3_axis2 atom37 ;;
  validity <- validity_reward pred_bb_atoms ;;
  diversity <- diversity_reward pred_bb_atoms ;;
  reward <- combine_reward diversity validity ;;
  sigma_t <- sigma_of (r3_t b) ;;
  trans_adjoint <-
    solve_adjoint_state (trans_drift pred_trans_1 reward)
      (trans_drift_grad pred_trans_1 reward) (trans_t b) (r3_t b)
      loss_mask ;;
  trans_vf <- trans_drift pred_trans_1 reward (trans_t b) (r3_t b) ;;
  trans_loss <- trans_loss_of cfg trans_vf sigma_t trans_adjoint loss_mask ;;
  rot_adjoint <-
    solve_adjoint_state (rot_drift pred_rotmats_1 reward)
      (rot_drift_grad pred_rotmats_1 reward) (rotmats_t b) (so3_t b)
      loss_mask ;;
  rot_vf <- rot_drift pred_rotmats_1 reward (rotmats_t b) (so3_t b) ;;
  rots_vf_loss <- rots_vf_loss_of cfg rot_vf (so3_t b) rot_adjoint loss_mask ;;
  auxiliary_loss <-
    auxiliary_loss_of cfg (r3_t b)
      (a <- to_atom37 (trans_1 b) (rotmats_1 b) ;; first3_axis2 a)
      pred_bb_atoms loss_mask reward ;;
  finish trans_loss rots_vf_loss auxiliary_loss diversity validity reward.

End ModelStep.


(* ================================================================= *)
(** ** Auxiliary notions used in the statements *)

(** [idx] is a valid index of a tensor of shape [s]. *)
Definition in_range (idx s : list nat) : Prop := Forall2 lt idx s.

(** The sum of a list of reals, accumulated from the left as [sum_list]
    does. *)
Definition Rsum (l : list R) : R := fold_left Rplus l 0%R.

(** A batch of one example at time 1/2. *)
Definition t_half : tensor := mkT [1%nat; 1%nat] (fun _ => Fin (1 / 2)).

(** A tensor given by its shape and a constant entry. *)
Definition full (s : list nat) (x : num) : tensor := mkT s (fun _ => x).

(** A batch of one example and one residue whose residue is not diffused. *)
Definition batch_masked_out : noisy_batch :=
  mkBatch (full [1; 1]%nat (Fin 1)) (full [1; 1]%nat (Fin 0))
          (full [1; 1; 3]%nat (Fin 0)) (full [1; 1; 3; 3]%nat (Fin 0))
          t_half t_half
          (full [1; 1; 3]%nat (Fin 0)) (full [1; 1; 3; 3]%nat (Fin 0)).

(** A configuration with all three weights equal to 1, and collaborators
    that refuse every input. *)
Definition cfg_ones : training_cfg := mkCfg 1 1 1.

Definition model_refuses (_ : noisy_batch) : result (tensor * tensor) :=
  Err ShapeError.

Definition collaborator_refuses (_ _ : tensor) : result tensor :=
  Err ShapeError.

(** A derivative that the engine refuses to compute. *)
Definition grad_refused (_ _ _ _ _ : tensor) : option (list nat -> num) :=
  None.

(** The real value of a finite entry. *)
Definition to_R (a : num) : R :=
  match a with Fin x => x | _ => 0%R end.

(** All entries of a tensor are finite. *)
Definition all_finite (p : tensor) : Prop :=
  forall idx, is_finite (get p idx) = true.

(** The coordinates [c * p]: a uniform scaling of a structure. *)
Definition scale (c : R) (p : tensor) : tensor := map1 (mul (Fin c)) p.

(** Coordinate [c] of atom [i] of example [e], the atoms of the example
    being numbered in the order in which [reshape] flattens them. *)
Definition atom (p : tensor) (B N : nat) (e i c : nat) : num :=
  get p (unflat [B; N; 3; 3]%nat (flat_index [B; (N * 3)%nat; 3%nat] [e; i; c])).

(** The diversity term in the words of the specification: the mean of all
    pairwise Euclidean distances among [P] points [x 0 .. x (P-1)] of three
    coordinates, over entries and over reals. *)
Definition pairwise_mean (x : nat -> nat -> num) (P : nat) : num :=
  div (sum_list
         (map (fun i =>
                 sum_list
                   (map (fun j =>
                           sqrt (sum_list
                                   (map (fun c =>
                                           mul (sub (x i c) (x j c))
                                               (sub (x i c) (x j c)))
                                        (seq 0 3))))
                        (seq 0 P)))
              (seq 0 P)))
      (of_nat (P * P)).

Definition distance_R (r : nat -> nat -> R) (i j : nat) : R :=
  R_sqrt.sqrt
    (Rsum (map (fun c => (r i c - r j c) * (r i c - r j c))%R (seq 0 3))).

Definition pairwise_mean_R (r : nat -> nat -> R) (P : nat) : R :=
  (Rsum (map (fun i => Rsum (map (fun j => distance_R r i j) (seq 0 P)))
             (seq 0 P))
   / INR (P * P))%R.

(** One residue whose three backbone atoms all sit at the origin. *)
Definition coincident_atoms : tensor := full [1; 1; 3; 3]%nat (Fin 0).

(** One residue whose three backbone atoms sit at three different points:
    atom [k] at [(k, k, k)]. *)
Definition spread_atoms : tensor :=
  mkT [1; 1; 3; 3]%nat (fun idx => Fin (INR (nth 2 idx 0%nat))).

(** The auxiliary loss of example [b] in the words of the specification,
    with the factors the source applies: the squared coordinate error of the
    backbone atoms, masked, summed over residues, atoms and coordinates,
    divided by three times the number of valid residues, scaled by the
    auxiliary weight and by the reward, and clamped at 5. *)
Definition aux_formula (w : R) (gt pred mask reward : tensor) (N b : nat)
  : num :=
  clamp_max 5
    (mul
       (mul
          (div
             (sum_list (map (fun n =>
                sum_list (map (fun k =>
                  sum_list (map (fun c =>
                    mul (mul (sub (get gt [b; n; k; c]) (get pred [b; n; k; c]))
                             (sub (get gt [b; n; k; c]) (get pred [b; n; k; c])))
                        (get mask [b; n]))
                    (seq 0 3)))
                  (seq 0 3)))
                (seq 0 N)))
             (mul (sum_list (map (fun n => get mask [b; n]) (seq 0 N)))
                  (Fin 3)))
          (Fin w))
       (get reward [b])).

(** The coordinate regression loss of example [b], as the source has it:
    the squared coordinate error of the backbone atoms, masked, summed over
    residues, atoms and coordinates, and divided by three times the number
    of valid residues. *)
Definition bb_atom_formula (gt pred mask : tensor) (N b : nat) : num :=
  div
    (sum_list (map (fun n =>
       sum_list (map (fun k =>
         sum_list (map (fun c =>
           mul (mul (sub (get gt [b; n; k; c]) (get pred [b; n; k; c]))
                    (sub (get gt [b; n; k; c]) (get pred [b; n; k; c])))
               (get mask [b; n]))
           (seq 0 3)))
         (seq 0 3)))
       (seq 0 N)))
    (mul (sum_list (map (fun n => get mask [b; n]) (seq 0 N))) (Fin 3)).

(** Translation times of a batch of two examples: 3/10 for the first
    example and 9/10 for the second. *)
Definition times_low_high : tensor :=
  mkT [2; 1]%nat
      (fun idx => match idx with
                  | 0%nat :: _ => Fin (3 / 10)
                  | _ => Fin (9 / 10)
                  end).

(** The same two times in the other order. *)
Definition times_high_low : tensor :=
  mkT [2; 1]%nat
      (fun idx => match idx with
                  | 0%nat :: _ => Fin (9 / 10)
                  | _ => Fin (3 / 10)
                  end).

(** The translation drift of the source at one entry:
    [(pred - x) / (1 - t) * reward]. *)
Definition drift_tr (pred x t reward : num) : num :=
  mul (div (sub pred x) (sub (Fin 1) t)) reward.

(** The masked sum of squares of [drift + sigma * costate] over the
    residues and coordinates of example [j], with the noise coefficient of
    example [i]. *)
Definition masked_square_sum (vf sigma adjoint mask : tensor)
    (N i j : nat) : num :=
  sum_list (map (fun n =>
    sum_list (map (fun c =>
      mul (mul (add (get vf [j; n; c])
                    (mul (get sigma [i; 0%nat]) (get adjoint [j; n; c])))
               (add (get vf [j; n; c])
                    (mul (get sigma [i; 0%nat]) (get adjoint [j; n; c]))))
          (get mask [j; n]))
      (seq 0 3)))
    (seq 0 N)).

Definition valid_count (mask : tensor) (N j : nat) : num :=
  sum_list (map (fun n => get mask [j; n]) (seq 0 N)).

(** The translation loss of example [b] in the words of the specification:
    the masked sum of squares divided by the number of valid residues and
    clamped at 5. *)
Definition spec_trans_loss (vf sigma adjoint mask : tensor) (N b : nat)
  : num :=
  clamp_max 5 (div (masked_square_sum vf sigma adjoint mask N b b)
                   (valid_count mask N b)).

(** The same with the configured weight, as the source has it. *)
Definition weighted_trans_loss (w : R) (vf sigma adjoint mask : tensor)
    (N i j : nat) : num :=
  clamp_max 5 (div (mul (Fin w) (masked_square_sum vf sigma adjoint mask N i j))
                   (valid_count mask N j)).

(** The translation loss that the source computes at entry [(i, j)], for a
    drift tensor of any shape: the drift is read where broadcasting reads
    it, the noise coefficient is that of example [i] and the costate, the
    mask and the number of valid residues are those of example [j] (of the
    only example when [B = 1]). *)
Definition broadcast_trans_loss (w : R) (vf sigma adjoint mask : tensor)
    (B N i j : nat) : num :=
  clamp_max 5
    (div (mul (Fin w)
            (sum_list (map (fun n =>
               sum_list (map (fun c =>
                 mul (mul (add (get vf (bidx (shape vf) [i; j; n; c]))
                               (mul (get sigma [bsel B i; 0%nat])
                                    (get adjoint [bsel B j; n; c])))
                          (add (get vf (bidx (shape vf) [i; j; n; c]))
                               (mul (get sigma [bsel B i; 0%nat])
                                    (get adjoint [bsel B j; n; c]))))
                     (get mask [bsel B j; n]))
                 (seq 0 3)))
               (seq 0 N))))
         (valid_count mask N (bsel B j))).

(** A configuration whose translation weight is 2. *)
Definition cfg_double : training_cfg := mkCfg 2 1 1.

(** The drift that is zero everywhere.  Written as [0 * x] on a state that
    carries a gradient, the engine differentiates it in the first pass and
    the derivative is zero ([zero_drift_grad]); written as
    [torch.zeros_like(x)], or on a state without gradient, the engine
    refuses ([no_gradient]). *)
Definition zero_drift (x _ : tensor) : result tensor :=
  Ok (map1 (fun _ => Fin 0) x).

Definition zero_drift_grad (_ _ _ : tensor) : option (list nat -> num) :=
  Some (fun _ => Fin 0).

Definition no_gradient (_ _ _ : tensor) : option (list nat -> num) := None.

(** The contraction that [einsum] computes from the gradient [g] and the
    costate [a] at residue [(b, n)], for the output index [i]. *)
Definition contraction (g a : tensor) (N b n i : nat) : num :=
  sum_list
    (flat_map (fun j => map (fun m => mul (get g [i; bsel N j; m])
                                          (get a [b; n; j]))
                            (seq 0 3))
              (seq 0 3)).

(** Every entry of the mask is 0 or 1. *)
Definition binary_mask (mask : tensor) (B N : nat) : Prop :=
  forall b n, (b < B)%nat -> (n < N)%nat ->
    get mask [b; n] = Fin 0 \/ get mask [b; n] = Fin 1.

(** The mask of one example of three residues whose last residue is masked
    out. *)
Definition mask_last_out : tensor :=
  mkT [1; 3]%nat
      (fun idx => match idx with
                  | [_; 2%nat] => Fin 0
                  | _ => Fin 1
                  end).


(* ================================================================= *)
(** ** Real-valued readings of the loss blocks *)


Definition valid_count_R (mask : tensor) (N j : nat) : R :=
  Rsum (map (fun n => to_R (get mask [j; n])) (seq 0 N)).

(* ================================================================= *)
(** ** Inputs used in the examples *)

(** A batch of two examples of five residues, all valid and diffused, at
    time 1/2. *)
Definition batch_2x5 : noisy_batch :=
  mkBatch (full [2; 5]%nat (Fin 1)) (full [2; 5]%nat (Fin 1))
          (full [2; 5; 3]%nat (Fin 0)) (full [2; 5; 3; 3]%nat (Fin 0))
          (full [2; 1]%nat (Fin (1 / 2))) (full [2; 1]%nat (Fin (1 / 2)))
          (full [2; 5; 3]%nat (Fin 0)) (full [2; 5; 3; 3]%nat (Fin 0)).

(** A network and an atom reconstruction that return tensors of the
    documented shapes for that batch. *)
Definition model_2x5 (_ : noisy_batch) : result (tensor * tensor) :=
  Ok (full [2; 5; 3]%nat (Fin 0), full [2; 5; 3; 3]%nat (Fin 0)).

Definition to_atom37_2x5 (_ _ : tensor) : result tensor :=
  Ok (full [2; 5; 37; 3]%nat (Fin 0)).

(* ================================================================= *)
(** ** Real-valued reading of the validity term *)

(** The distance between atom [k] and atom [k + 1] of residue [n] of
    example [b], for finite coordinates. *)
Definition bond_R (p : tensor) (b n k : nat) : R :=
  R_sqrt.sqrt
    (Rsum (map (fun c =>
                  ((to_R (get p [b; n; S k; c]) - to_R (get p [b; n; k; c]))
                   * (to_R (get p [b; n; S k; c]) - to_R (get p [b; n; k; c])))%R)
               (seq 0 3))).

(** 1 when a distance lies strictly between 1 and 2, otherwise 0. *)
Definition in_bond_range (d : R) : R :=
  if Rltb 1 d && Rltb d 2 then 1%R else 0%R.

(** The structure [p] moved by the vector [s]: coordinate [c] of every atom
    is increased by [s c]. *)
Definition translate (s : nat -> R) (p : tensor) : tensor :=
  mkT (shape p) (fun idx => add (get p idx) (Fin (s (last idx 0%nat)))).

(* ================================================================= *)
(** ** Blocks of [FlowModule.training_step] *)

(** Lines 341-344: the self-conditioning translations,
    [pred_trans * diffuse_mask[..., None]
     + trans_1 * (1 - diffuse_mask[..., None])]. *)
Definition self_condition_trans (pred_trans trans_1 diffuse_mask : tensor)
  : result tensor :=
  let dm := unsqueeze_last diffuse_mask in
  a <- tmul pred_trans dm ;;
  b <- tmul trans_1 (map1 (sub (Fin 1)) dm) ;;
  tadd a b.

(** Lines 381-382: [motif_mask = 1 - diffuse_mask] and
    [num_motif_res = torch.sum(motif_mask, dim=-1)]. *)
Definition motif_mask_of (diffuse_mask : tensor) : tensor :=
  map1 (sub (Fin 1)) diffuse_mask.

Definition num_motif_res (diffuse_mask : tensor) : tensor :=
  sum_last (motif_mask_of diffuse_mask).

(* ================================================================= *)
(** ** The lazily created directories: [checkpoint_dir], [inference_dir]

    The two properties read a cached attribute; on the first read they
    resolve the directory (through a broadcast from rank 0 when
    [torch.distributed] is initialized), store it and create it.  The
    embedding passes the two cached attributes explicitly and returns the
    calls made to the outside world. *)

Section Directories.

Variable path : Type.

(** What the process sees of [torch.distributed]: whether it is
    initialized, the rank of the process and the object that rank 0
    contributes to a broadcast. *)
Record dist_env : Type := mkDist {
  is_initialized : bool;
  get_rank : nat;
  rank0_object : option path
}.

Inductive effect : Type :=
| Broadcast (obj : option path)   (* dist.broadcast_object_list([obj], src=0) *)
| Makedirs (p : path).            (* os.makedirs(p, exist_ok=True) *)

(** [self._checkpoint_dir] and [self._inference_dir]; [None] is Python's
    [None]. *)
Record dir_cache : Type := mkDirs {
  _checkpoint_dir : option path;
  _inference_dir : option path
}.

(** A directory, or the [TypeError] of [os.makedirs(None)]. *)
Inductive dir_result : Type :=
| Dir (p : path)
| MakedirsTypeError.

(** The [if dist.is_initialized(): ... else: ...] block.  After
    [broadcast_object_list] every rank holds the object of rank 0; on rank 0
    this is the configured directory. *)
Definition resolve_dir (env : dist_env) (configured : option path)
  : option path * list effect :=
  if is_initialized env then
    let sent := if Nat.eqb (get_rank env) 0 then configured else None in
    let received :=
      if Nat.eqb (get_rank env) 0 then sent else rank0_object env in
    (received, [Broadcast sent])
  else (configured, []).

Definition checkpoint_dir (env : dist_env) (dirpath : option path)
    (s : dir_cache) : dir_result * dir_cache * list effect :=
  match _checkpoint_dir s with
  | Some p => (Dir p, s, [])
  | None =>
      let (d, eff) := resolve_dir env dirpath in
      let s' := mkDirs d (_inference_dir s) in
      match d with
      | Some p => (Dir p, s', eff ++ [Makedirs p])
      | None => (MakedirsTypeError, s', eff)
      end
  end.

Definition inference_dir (env : dist_env) (dirpath : option path)
    (s : dir_cache) : dir_result * dir_cache * list effect :=
  match _inference_dir s with
  | Some p => (Dir p, s, [])
  | None =>
      let (d, eff) := resolve_dir env dirpath in
      let s' := mkDirs (_checkpoint_dir s) d in
      match d with
      | Some p => (Dir p, s', eff ++ [Makedirs p])
      | None => (MakedirsTypeError, s', eff)
      end
  end.

End Directories.

Arguments Broadcast {path} obj.
Arguments Makedirs {path} p.
Arguments Dir {path} p.
Arguments MakedirsTypeError {path}.
(* ================================================================= *)
(** ** Properties *)

Unset Implicit Arguments.

Arguments bdim : simpl never.
Arguments bsel : simpl never.

Local Open Scope R_scope.

(** *** Scalars *)

Lemma Rltb_true (x y : R) : x < y -> Rltb x y = true.
Proof. unfold Rltb; destruct (Rlt_dec x y); intuition. Qed.

Lemma Rltb_false (x y : R) : ~ x < y -> Rltb x y = false.
Proof. unfold Rltb; destruct (Rlt_dec x y); intuition. Qed.

Lemma Reqb_true (x y : R) : x = y -> Reqb x y = true.
Proof. unfold Reqb; destruct (Req_dec_T x y); intuition. Qed.

Lemma Reqb_false (x y : R) : x <> y -> Reqb x y = false.
Proof. unfold Reqb; destruct (Req_dec_T x y); intuition. Qed.

Lemma Fin_inj (x y : R) : Fin x = Fin y -> x = y.
Proof. now intros [=]. Qed.

Lemma add_nan_l (a : num) : add NaN a = NaN.
Proof. now destruct a. Qed.


Lemma mul_nan_l (a : num) : mul NaN a = NaN.
Proof. now destruct a. Qed.

Lemma mul_nan_r (a : num) : mul a NaN = NaN.
Proof. now destruct a. Qed.

Lemma sub_nan_l (a : num) : sub NaN a = NaN.
Proof. unfold sub; now destruct a. Qed.

Lemma sub_nan_r (a : num) : sub a NaN = NaN.
Proof. unfold sub; now destruct a. Qed.


Lemma mul_zero_l (a : num) : is_finite a = true -> mul (Fin 0) a = Fin 0.
Proof. destruct a; try discriminate; intros _; cbn; f_equal; lra. Qed.

(** Masking does not clear a value that is not finite. *)
Lemma mul_zero_r_not_finite (a : num) :
  is_finite a = false -> mul a (Fin 0) = NaN.
Proof.
  destruct a; try discriminate; intros _; cbn; trivial;
    unfold mul_inf; now rewrite Reqb_true.
Qed.



Lemma fold_add_Fin (l : list R) (acc : R) :
  fold_left add (map Fin l) (Fin acc) = Fin (fold_left Rplus l acc).
Proof.
  revert acc; induction l as [|x l IH]; intros acc; cbn; auto.
Qed.

Lemma sum_list_Fin (l : list R) : sum_list (map Fin l) = Fin (Rsum l).
Proof. apply fold_add_Fin. Qed.

Lemma fold_Rplus_acc (l : list R) (acc : R) :
  fold_left Rplus l acc = acc + Rsum l.
Proof.
  unfold Rsum. revert acc.
  induction l as [|x l IH]; intros acc; cbn; [lra|].
  rewrite IH, (IH (0 + x)). lra.
Qed.

Lemma Rsum_cons (x : R) (l : list R) : Rsum (x :: l) = x + Rsum l.
Proof. unfold Rsum at 1; cbn. rewrite fold_Rplus_acc. lra. Qed.

Lemma Rsum_nil : Rsum [] = 0.
Proof. reflexivity. Qed.

Lemma Rsum_scal (c : R) (A : Type) (f : A -> R) (l : list A) :
  Rsum (map (fun k => c * f k) l) = c * Rsum (map f l).
Proof.
  induction l as [|x l IH]; cbn [map].
  - rewrite Rsum_nil; lra.
  - rewrite !Rsum_cons, IH; lra.
Qed.

Lemma Rsum_nonneg (l : list R) : Forall (fun x => 0 <= x) l -> 0 <= Rsum l.
Proof.
  induction 1 as [|x l Hx _ IH]; [rewrite Rsum_nil; lra|].
  rewrite Rsum_cons; lra.
Qed.

Lemma Rsum_all_zero (A : Type) (f : A -> R) (l : list A) :
  (forall k, In k l -> f k = 0) -> Rsum (map f l) = 0.
Proof.
  induction l as [|x l IH]; intros H; cbn [map].
  - apply Rsum_nil.
  - rewrite Rsum_cons, IH, (H x); [lra|now left|].
    intros k Hk; apply H; now right.
Qed.

(** *** Indices and broadcasting *)

Lemma in_indices (s idx : list nat) : in_range idx s <-> In idx (indices s).
Proof.
  revert idx; induction s as [|d s IH]; intros idx; cbn.
  - split.
    + intros H; inversion H; now left.
    + intros [<-|[]]; constructor.
  - rewrite in_flat_map. split.
    + intros H; inversion H as [|i d' idx' s' Hi Hr]; subst.
      exists i; split; [apply in_seq; lia|].
      apply in_map, IH, Hr.
    + intros (i & Hi & Hin). apply in_map_iff in Hin as (idx' & <- & Hin').
      apply in_seq in Hi. constructor; [lia|now apply IH].
Qed.

Ltac in_range_tac :=
  unfold in_range; repeat (apply Forall2_cons; [lia|]); apply Forall2_nil.

Lemma bdim_same (d : nat) : bdim d d = Some d.
Proof. unfold bdim. now rewrite Nat.eqb_refl. Qed.

Lemma bdim_1_l (d : nat) : bdim 1 d = Some d.
Proof. unfold bdim. destruct (Nat.eqb_spec 1 d); [now subst|reflexivity]. Qed.

Lemma bdim_1_r (d : nat) : bdim d 1 = Some d.
Proof.
  unfold bdim. destruct (Nat.eqb_spec d 1) as [->|]; [reflexivity|].
  reflexivity.
Qed.

Lemma bdim_mismatch (d1 d2 : nat) :
  d1 <> d2 -> d1 <> 1%nat -> d2 <> 1%nat -> bdim d1 d2 = None.
Proof.
  intros H1 H2 H3. unfold bdim.
  destruct (Nat.eqb_spec d1 d2); [easy|].
  destruct (Nat.eqb_spec d1 1); [easy|].
  destruct (Nat.eqb_spec d2 1); [easy|]. reflexivity.
Qed.

Lemma bdim_some (d1 d2 d : nat) :
  bdim d1 d2 = Some d -> d1 = d2 \/ d1 = 1%nat \/ d2 = 1%nat.
Proof.
  unfold bdim.
  destruct (Nat.eqb_spec d1 d2); [now left|].
  destruct (Nat.eqb_spec d1 1); [now right; left|].
  destruct (Nat.eqb_spec d2 1); [now right; right|discriminate].
Qed.

Lemma bsel_1 (i : nat) : bsel 1 i = 0%nat.
Proof. reflexivity. Qed.

Lemma bsel_lt (d i : nat) : (i < d)%nat -> bsel d i = i.
Proof. unfold bsel. destruct (Nat.eqb_spec d 1); lia. Qed.

Lemma bshape_rev_same (s : list nat) : bshape_rev s s = Some s.
Proof.
  induction s as [|d s IH]; cbn; trivial.
  now rewrite IH, bdim_same.
Qed.

Lemma broadcast_shapes_same (s : list nat) : broadcast_shapes s s = Some s.
Proof.
  unfold broadcast_shapes. now rewrite bshape_rev_same; cbn; rewrite rev_involutive.
Qed.

Lemma bidx_rev_same (s idx : list nat) :
  in_range idx s -> bidx_rev s idx = idx.
Proof.
  intros H; induction H as [|i d idx s Hi _ IH]; cbn; trivial.
  now rewrite IH, bsel_lt.
Qed.

Lemma in_range_rev (idx s : list nat) :
  in_range idx s -> in_range (rev idx) (rev s).
Proof.
  intros H; induction H as [|i d idx s Hi _ IH]; cbn; [constructor|].
  apply Forall2_app; [exact IH|]. constructor; [exact Hi|constructor].
Qed.

Lemma bidx_same (s idx : list nat) : in_range idx s -> bidx s idx = idx.
Proof.
  intros H. unfold bidx.
  rewrite bidx_rev_same by now apply in_range_rev.
  apply rev_involutive.
Qed.

(** Elementwise operations on two tensors of one shape. *)
Lemma map2_same_shape (f : num -> num -> num) (a b : tensor) :
  shape a = shape b ->
  exists r, map2 f a b = Ok r /\ shape r = shape a /\
    forall idx, in_range idx (shape a) ->
      get r idx = f (get a idx) (get b idx).
Proof.
  intros Hs. unfold map2. rewrite <- Hs, broadcast_shapes_same.
  eexists; split; [reflexivity|]. split; [reflexivity|].
  intros idx Hr; cbn. now rewrite bidx_same.
Qed.

(** *** Broadcasting in general *)

Lemma bsel_bdim_l (d1 d2 d i : nat) :
  bdim d1 d2 = Some d -> (i < d)%nat -> (bsel d1 i < d1)%nat.
Proof.
  unfold bdim, bsel. intros H Hi.
  destruct (Nat.eqb_spec d1 1) as [->|H1]; [lia|].
  destruct (Nat.eqb_spec d1 d2) as [->|H2]; [injection H as <-; lia|].
  destruct (Nat.eqb_spec d2 1); [injection H as <-; lia|discriminate].
Qed.

Lemma bsel_bdim_r (d1 d2 d i : nat) :
  bdim d1 d2 = Some d -> (i < d)%nat -> (bsel d2 i < d2)%nat.
Proof.
  unfold bdim, bsel. intros H Hi.
  destruct (Nat.eqb_spec d2 1) as [->|H1]; [lia|].
  destruct (Nat.eqb_spec d1 d2) as [->|H2]; [injection H as <-; lia|].
  destruct (Nat.eqb_spec d1 1); [injection H as <-; lia|discriminate].
Qed.

Lemma bidx_rev_in_range_l (r1 r2 r ridx : list nat) :
  bshape_rev r1 r2 = Some r -> in_range ridx r ->
  in_range (bidx_rev r1 ridx) r1.
Proof.
  revert r2 r ridx. induction r1 as [|d1 r1 IH]; intros r2 r ridx Hs Hr.
  - destruct ridx; constructor.
  - destruct r2 as [|d2 r2].
    + cbn in Hs. injection Hs as <-. now rewrite bidx_rev_same.
    + cbn in Hs. destruct (bshape_rev r1 r2) as [r'|] eqn:E; [|discriminate].
      destruct (bdim d1 d2) as [d|] eqn:Ed; [|discriminate].
      injection Hs as <-. inversion Hr as [|i d' ridx' r'' Hi Hr']; subst.
      cbn. constructor; [exact (bsel_bdim_l d1 d2 d i Ed Hi)|].
      exact (IH r2 r' ridx' E Hr').
Qed.

Lemma bidx_rev_in_range_r (r1 r2 r ridx : list nat) :
  bshape_rev r1 r2 = Some r -> in_range ridx r ->
  in_range (bidx_rev r2 ridx) r2.
Proof.
  revert r1 r ridx. induction r2 as [|d2 r2 IH]; intros r1 r ridx Hs Hr.
  - destruct ridx; constructor.
  - destruct r1 as [|d1 r1].
    + cbn in Hs. injection Hs as <-. now rewrite bidx_rev_same.
    + cbn in Hs. destruct (bshape_rev r1 r2) as [r'|] eqn:E; [|discriminate].
      destruct (bdim d1 d2) as [d|] eqn:Ed; [|discriminate].
      injection Hs as <-. inversion Hr as [|i d' ridx' r'' Hi Hr']; subst.
      cbn. constructor; [exact (bsel_bdim_r d1 d2 d i Ed Hi)|].
      exact (IH r1 r' ridx' E Hr').
Qed.

Lemma in_range_rev_inv (idx s : list nat) :
  in_range (rev idx) (rev s) -> in_range idx s.
Proof.
  intros H. apply in_range_rev in H. now rewrite !rev_involutive in H.
Qed.

(** The index at which an operand is read lies in its shape. *)
Lemma bidx_in_range_l (s1 s2 s idx : list nat) :
  broadcast_shapes s1 s2 = Some s -> in_range idx s ->
  in_range (bidx s1 idx) s1.
Proof.
  unfold broadcast_shapes, bidx. intros Hs Hr.
  destruct (bshape_rev (rev s1) (rev s2)) as [r|] eqn:E; [|discriminate].
  injection Hs as <-. apply in_range_rev_inv. rewrite rev_involutive.
  apply (bidx_rev_in_range_l _ _ _ _ E).
  apply in_range_rev in Hr. now rewrite rev_involutive in Hr.
Qed.

Lemma bidx_in_range_r (s1 s2 s idx : list nat) :
  broadcast_shapes s1 s2 = Some s -> in_range idx s ->
  in_range (bidx s2 idx) s2.
Proof.
  unfold broadcast_shapes, bidx. intros Hs Hr.
  destruct (bshape_rev (rev s1) (rev s2)) as [r|] eqn:E; [|discriminate].
  injection Hs as <-. apply in_range_rev_inv. rewrite rev_involutive.
  apply (bidx_rev_in_range_r _ _ _ _ E).
  apply in_range_rev in Hr. now rewrite rev_involutive in Hr.
Qed.

(** An elementwise operation on two tensors whose shapes broadcast to
    [s]. *)
Lemma map2_broadcast (f : num -> num -> num) (a b : tensor) (s : list nat) :
  broadcast_shapes (shape a) (shape b) = Some s ->
  exists r, map2 f a b = Ok r /\ shape r = s /\
    forall idx, get r idx = f (get a (bidx (shape a) idx))
                              (get b (bidx (shape b) idx)).
Proof.
  intros Hs. unfold map2. rewrite Hs.
  eexists; split; [reflexivity|]. split; reflexivity.
Qed.

Lemma map2_refused (f : num -> num -> num) (a b : tensor) :
  broadcast_shapes (shape a) (shape b) = None -> map2 f a b = Err ShapeError.
Proof. intros Hs. unfold map2. now rewrite Hs. Qed.

(* ----------------------------------------------------------------- *)
(** *** The noise schedule *)

Lemma eta_of_entry (r3_t : tensor) :
  exists eta, eta_of r3_t = Ok eta /\ shape eta = shape r3_t /\
    forall idx, in_range idx (shape r3_t) ->
      get eta idx =
        mul (sub (Fin 1) (get r3_t idx))
            (sub (mul (div one (get r3_t idx)) (sub (Fin 1) (get r3_t idx)))
                 (neg one)).
Proof.
  unfold eta_of, tdiv, tmul, tsub.
  destruct (map2_same_shape div (ones_like r3_t) r3_t eq_refl)
    as (q & -> & Hsq & Hq); cbn [bind].
  destruct (map2_same_shape mul q (map1 (sub (Fin 1)) r3_t) Hsq)
    as (p & -> & Hsp & Hp); cbn [bind].
  destruct (map2_same_shape sub p (map1 neg (ones_like r3_t))
              (eq_trans Hsp Hsq))
    as (s & -> & Hss & Hs); cbn [bind].
  assert (Hbs : shape (map1 (sub (Fin 1)) r3_t) = shape s)
    by (cbn; now rewrite Hss, Hsp, Hsq).
  destruct (map2_same_shape mul (map1 (sub (Fin 1)) r3_t) s Hbs)
    as (e & -> & Hse & He).
  exists e; split; [reflexivity|]. split; [exact Hse|].
  intros idx Hr. cbn in He, Hq, Hsq, Hsp.
  rewrite (He idx Hr), Hs, Hp, Hq; cbn;
    rewrite ?Hsp, ?Hsq; trivial.
Qed.

(** For a time strictly between 0 and 1 the formula of the source is
    [(1 - t) / t]. *)
Lemma eta_formula (t : R) :
  0 < t < 1 ->
  mul (sub (Fin 1) (Fin t))
      (sub (mul (div one (Fin t)) (sub (Fin 1) (Fin t))) (neg one))
  = Fin ((1 - t) / t).
Proof.
  intros Ht. cbn. rewrite Reqb_false by lra. cbn. f_equal. field. lra.
Qed.

(** C4 (amended).  For the linear schedule the coefficient computed by the
    source, [beta * (alpha_dot / alpha * beta - beta_dot)], is
    [(1 - t) / t] at every time [t] strictly between 0 and 1, and
    [sigma = sqrt (2 * eta)] is then a real, non-negative number. *)
Theorem eta_sigma_linear_schedule (r3_t : tensor) (idx : list nat) (t : R) :
  in_range idx (shape r3_t) ->
  get r3_t idx = Fin t ->
  0 < t < 1 ->
  exists eta sigma,
    eta_of r3_t = Ok eta /\ sigma_of r3_t = Ok sigma /\
    get eta idx = Fin ((1 - t) / t) /\
    get sigma idx = Fin (R_sqrt.sqrt (2 * ((1 - t) / t))) /\
    0 <= R_sqrt.sqrt (2 * ((1 - t) / t)).
Proof.
  intros Hr Hg Ht.
  destruct (eta_of_entry r3_t) as (eta & Heta & Hs & He).
  exists eta, (map1 sqrt (map1 (mul (Fin 2)) eta)).
  assert (Hv : get eta idx = Fin ((1 - t) / t))
    by (rewrite (He idx Hr), Hg; now apply eta_formula).
  repeat split; trivial.
  - unfold sigma_of. now rewrite Heta.
  - cbn. rewrite Hv. cbn. rewrite Rltb_false; trivial.
    assert (0 < (1 - t) / t) by (apply Rdiv_lt_0_compat; lra). lra.
  - apply sqrt_pos.
Qed.

Lemma eta_sigma_linear_schedule_witness :
  exists eta sigma,
    eta_of t_half = Ok eta /\ sigma_of t_half = Ok sigma /\
    get eta [0%nat; 0%nat] = Fin ((1 - 1 / 2) / (1 / 2)) /\
    get sigma [0%nat; 0%nat]
      = Fin (R_sqrt.sqrt (2 * ((1 - 1 / 2) / (1 / 2)))) /\
    0 <= R_sqrt.sqrt (2 * ((1 - 1 / 2) / (1 / 2))).
Proof.
  apply (eta_sigma_linear_schedule t_half [0%nat; 0%nat] (1 / 2)).
  - repeat constructor.
  - reflexivity.
  - lra.
Defined.

(** C4 as stated fails: at [t = 1/2] the source computes [eta = 1], which
    is not [(1 - t) * t = 1/4]. *)
Lemma eta_at_half_is_not_t_times_one_minus_t :
  exists eta,
    eta_of t_half = Ok eta /\
    get eta [0%nat; 0%nat] = Fin 1 /\
    get eta [0%nat; 0%nat] <> Fin ((1 - 1 / 2) * (1 / 2)).
Proof.
  destruct (eta_of_entry t_half) as (eta & Heta & _ & He).
  exists eta. split; [exact Heta|].
  assert (Hv : get eta [0%nat; 0%nat] = Fin 1).
  { rewrite He by repeat constructor.
    cbn [t_half get]. rewrite eta_formula by lra. f_equal. field. }
  split; [exact Hv|]. rewrite Hv. intros H. apply Fin_inj in H. lra.
Qed.

(* ----------------------------------------------------------------- *)
(** *** The empty-batch check *)

Lemma any_true (p : num -> bool) (a : tensor) (idx : list nat) :
  in_range idx (shape a) -> p (get a idx) = true -> any p a = true.
Proof.
  intros Hr Hp. unfold any, entries. apply existsb_exists.
  exists (get a idx); split; [|exact Hp].
  apply in_map, in_indices, Hr.
Qed.

Lemma any_false (p : num -> bool) (a : tensor) :
  any p a = false ->
  forall idx, in_range idx (shape a) -> p (get a idx) = false.
Proof.
  intros H idx Hr. destruct (p (get a idx)) eqn:E; trivial.
  now rewrite (any_true p a idx Hr E) in H.
Qed.

Lemma sum_last_matrix (m : tensor) (B N : nat) :
  shape m = [B; N] ->
  shape (sum_last m) = [B] /\
  forall e, get (sum_last m) [e]
            = sum_list (map (fun n => get m [e; n]) (seq 0 N)).
Proof.
  intros Hs. unfold sum_last. rewrite Hs. cbn. split; reflexivity.
Qed.

Lemma loss_mask_of_entry (b : noisy_batch) (B N : nat) :
  shape (res_mask b) = [B; N] ->
  shape (diffuse_mask b) = [B; N] ->
  exists m, loss_mask_of b = Ok m /\ shape m = [B; N] /\
    forall e n, (e < B)%nat -> (n < N)%nat ->
      get m [e; n] = mul (get (res_mask b) [e; n]) (get (diffuse_mask b) [e; n]).
Proof.
  intros Hr Hd. unfold loss_mask_of, tmul.
  destruct (map2_same_shape mul (res_mask b) (diffuse_mask b))
    as (m & -> & Hs & Hm); [congruence|].
  exists m. split; [reflexivity|]. split; [congruence|].
  intros e n He Hn. apply Hm. rewrite Hr. repeat constructor; trivial.
Qed.

(** C6.  When the effective mask (the product of the validity mask and the
    diffused mask) of some example sums to less than one, [model_step] fails
    with the empty-batch error whatever the collaborators would do, and no
    loss record is returned. *)
Theorem model_step_empty_batch
    (cfg : training_cfg)
    (model : noisy_batch -> result (tensor * tensor))
    (to_atom37 calc_rot_vf : tensor -> tensor -> result tensor)
    (trans_drift_grad rot_drift_grad :
       tensor -> tensor -> tensor -> tensor -> tensor ->
       option (list nat -> num))
    (b : noisy_batch) (B N e : nat) :
  shape (res_mask b) = [B; N] ->
  shape (diffuse_mask b) = [B; N] ->
  (e < B)%nat ->
  ltb (sum_list
         (map (fun n => mul (get (res_mask b) [e; n])
                            (get (diffuse_mask b) [e; n]))
              (seq 0 N)))
      (Fin 1) = true ->
  model_step cfg model to_atom37 calc_rot_vf trans_drift_grad rot_drift_grad
    b
  = Err EmptyBatch.
Proof.
  intros Hr Hd He Hlt.
  destruct (loss_mask_of_entry b B N Hr Hd) as (m & Hm & Hs & Hg).
  unfold model_step. rewrite Hm; cbn [bind].
  destruct (sum_last_matrix m B N Hs) as (Hss & Hsg).
  assert (Hany : empty_batch m = true).
  { unfold empty_batch. apply (any_true _ _ [e]).
    - rewrite Hss. repeat constructor; trivial.
    - rewrite Hsg.
      erewrite map_ext_in; [exact Hlt|].
      intros n Hn; cbn. apply in_seq in Hn. apply Hg; [trivial|lia]. }
  now rewrite Hany.
Qed.

Lemma model_step_empty_batch_witness :
  model_step cfg_ones model_refuses collaborator_refuses collaborator_refuses
    grad_refused grad_refused batch_masked_out
  = Err EmptyBatch.
Proof.
  apply (model_step_empty_batch cfg_ones model_refuses collaborator_refuses
           collaborator_refuses grad_refused grad_refused
           batch_masked_out 1 1 0).
  - reflexivity.
  - reflexivity.
  - lia.
  - cbn. apply Rltb_true. lra.
Defined.

(* ----------------------------------------------------------------- *)
(** *** The NaN check *)

Lemma nan_check_ok (total : tensor) :
  nan_check total = Ok tt <->
  forall idx, in_range idx (shape total) -> get total idx <> NaN.
Proof.
  unfold nan_check. split.
  - destruct (any is_nan total) eqn:E; [discriminate|]. intros _ idx Hr Hn.
    pose proof (any_false is_nan total E idx Hr) as H.
    now rewrite Hn in H.
  - intros H. destruct (any is_nan total) eqn:E; trivial.
    unfold any, entries in E. apply existsb_exists in E as (x & Hin & Hx).
    apply in_map_iff in Hin as (idx & <- & Hin).
    apply in_indices in Hin. destruct (get total idx) eqn:G; try discriminate.
    now elim (H idx Hin).
Qed.

(** C7 (amended).  When some entry of the total loss is NaN, the last block
    of [model_step] fails with the NaN-loss error and returns no record; the
    NaN is not replaced by a number. *)
Theorem nan_total_loss_is_rejected
    (trans_loss rots_vf_loss auxiliary_loss diversity validity reward
       total : tensor) (idx : list nat) :
  se3_vf_loss_of trans_loss rots_vf_loss auxiliary_loss = Ok total ->
  in_range idx (shape total) ->
  get total idx = NaN ->
  finish trans_loss rots_vf_loss auxiliary_loss diversity validity reward
  = Err NaNLoss.
Proof.
  intros Ht Hr Hn. unfold finish. rewrite Ht; cbn [bind].
  unfold nan_check. rewrite (any_true is_nan total idx Hr); [reflexivity|].
  now rewrite Hn.
Qed.

Lemma nan_total_loss_is_rejected_witness :
  finish (full [1%nat] NaN) (full [1%nat] (Fin 1)) (scalar (Fin 0))
         (full [1%nat] (Fin 0)) (full [1%nat] (Fin 0)) (full [1%nat] (Fin 0))
  = Err NaNLoss.
Proof.
  apply (nan_total_loss_is_rejected
           (full [1%nat] NaN) (full [1%nat] (Fin 1)) (scalar (Fin 0))
           (full [1%nat] (Fin 0)) (full [1%nat] (Fin 0)) (full [1%nat] (Fin 0))
           (mkT [1%nat] (fun _ => NaN)) [0%nat]).
  - reflexivity.
  - repeat constructor.
  - reflexivity.
Defined.

(** Conversely a record is returned exactly when no entry of the total is
    NaN, and the record holds the three losses and their sum unchanged. *)
Lemma finish_returns
    (trans_loss rots_vf_loss auxiliary_loss diversity validity reward
       total : tensor) :
  se3_vf_loss_of trans_loss rots_vf_loss auxiliary_loss = Ok total ->
  (forall idx, in_range idx (shape total) -> get total idx <> NaN) ->
  finish trans_loss rots_vf_loss auxiliary_loss diversity validity reward
  = Ok (mkRecord trans_loss auxiliary_loss rots_vf_loss total
                 diversity validity reward).
Proof.
  intros Ht Hn. unfold finish. rewrite Ht; cbn [bind].
  apply nan_check_ok in Hn. now rewrite Hn.
Qed.

(** C7 as stated fails: a total loss that is infinite, hence not finite, is
    not NaN; the check lets it through and the record is returned. *)
Lemma infinite_total_loss_is_returned :
  exists r,
    finish (full [1%nat] (Fin 1)) (full [1%nat] PInf) (scalar (Fin 0))
           (full [1%nat] (Fin 0)) (full [1%nat] (Fin 0)) (full [1%nat] (Fin 0))
    = Ok r /\
    get (rec_se3_vf_loss r) [0%nat] = PInf /\
    is_finite (get (rec_se3_vf_loss r) [0%nat]) = false.
Proof.
  eexists. split; [reflexivity|]. split; reflexivity.
Qed.

(* ----------------------------------------------------------------- *)
(** *** The reward *)

Lemma validity_reward_shape (p : tensor) (B N : nat) :
  shape p = [B; N; 3; 3]%nat ->
  exists v, validity_reward p = Ok v /\ shape v = [B; N].
Proof.
  intros Hs.
  unfold validity_reward, bond_lengths, tail_axis2, init_axis2, slice_axis2.
  rewrite Hs; cbn [bind].
  unfold tsub.
  match goal with |- context [map2 sub ?a ?b] =>
    destruct (map2_same_shape sub a b eq_refl) as (d & -> & Hd & _)
  end.
  cbn [bind]. eexists; split; [reflexivity|].
  cbn in Hd. unfold mean_last, norm_last, sum_last; cbn. rewrite Hd. cbn.
  reflexivity.
Qed.

Lemma numel_atoms (B N : nat) :
  numel [B; N; 3; 3]%nat = (N * 3 * (B * 3))%nat.
Proof. cbn. lia. Qed.

Lemma reshape_atoms (p : tensor) (B N : nat) :
  shape p = [B; N; 3; 3]%nat -> (0 < B)%nat ->
  reshape_b_m1_3 p
  = Ok (mkT [B; (N * 3)%nat; 3%nat]
            (fun idx =>
               get p (unflat [B; N; 3; 3]%nat
                        (flat_index [B; (N * 3)%nat; 3%nat] idx)))).
Proof.
  intros Hs HB. unfold reshape_b_m1_3. rewrite Hs, numel_atoms.
  destruct (Nat.eqb_spec (B * 3) 0); [lia|].
  rewrite Nat.Div0.mod_mul, Nat.div_mul by lia. reflexivity.
Qed.

Lemma diversity_reward_shape (p : tensor) (B N : nat) :
  shape p = [B; N; 3; 3]%nat -> (0 < B)%nat ->
  exists d, diversity_reward p = Ok d /\ shape d = [B].
Proof.
  intros Hs HB. unfold diversity_reward.
  rewrite (reshape_atoms p B N Hs HB); cbn [bind].
  unfold cdist_self, mean_last2, sum_last2; cbn.
  eexists; split; reflexivity.
Qed.

Lemma diversity_reward_empty (p : tensor) (N : nat) :
  shape p = [0; N; 3; 3]%nat -> diversity_reward p = Err ShapeError.
Proof.
  intros Hs. unfold diversity_reward, reshape_b_m1_3. now rewrite Hs.
Qed.

Lemma combine_reward_mismatch (d v : tensor) (B N : nat) :
  shape d = [B] -> shape v = [B; N] ->
  B <> N -> B <> 1%nat -> N <> 1%nat ->
  combine_reward d v = Err ShapeError.
Proof.
  intros Hd Hv H1 H2 H3. unfold combine_reward, tadd, map2; cbn.
  rewrite Hd, Hv. unfold broadcast_shapes; cbn.
  now rewrite bdim_mismatch.
Qed.

(** C3 (failing input).  On the backbone atoms of [B] examples of [N]
    residues, the validity term has one entry per residue of every example
    (shape [(B, N)]) while the diversity term has one entry per example
    (shape [(B)]); their sum is refused by the engine unless [B = N], [B = 1]
    or [N = 1], so no per-example reward is produced. *)
Theorem reward_of_shape_error (p : tensor) (B N : nat) :
  shape p = [B; N; 3; 3]%nat ->
  B <> N -> B <> 1%nat -> N <> 1%nat ->
  reward_of p = Err ShapeError.
Proof.
  intros Hs H1 H2 H3. unfold reward_of.
  destruct (validity_reward_shape p B N Hs) as (v & -> & Hv); cbn [bind].
  destruct B as [|B'].
  - now rewrite (diversity_reward_empty p N Hs).
  - destruct (diversity_reward_shape p (S B') N Hs) as (d & -> & Hd); [lia|].
    cbn [bind]. now apply (combine_reward_mismatch d v (S B') N).
Qed.

Lemma reward_of_shape_error_witness :
  reward_of (full [2; 5; 3; 3]%nat (Fin 0)) = Err ShapeError.
Proof.
  apply (reward_of_shape_error (full [2; 5; 3; 3]%nat (Fin 0)) 2 5).
  - reflexivity.
  - lia.
  - lia.
  - lia.
Defined.

(** Where the sum is accepted, the reward is a matrix, not one number per
    example. *)
Lemma reward_of_rank (p r : tensor) (B N : nat) :
  shape p = [B; N; 3; 3]%nat ->
  reward_of p = Ok r -> rank r = 2%nat.
Proof.
  intros Hs. unfold reward_of.
  destruct (validity_reward_shape p B N Hs) as (v & -> & Hv); cbn [bind].
  destruct (Nat.eq_dec B 0) as [->|HB].
  - now rewrite (diversity_reward_empty p N Hs).
  - destruct (diversity_reward_shape p B N Hs) as (d & -> & Hd); [lia|].
    cbn [bind]. unfold combine_reward, tadd, map2; cbn.
    rewrite Hd, Hv. unfold broadcast_shapes; cbn.
    destruct (bdim B N); cbn; intros H; try discriminate;
      injection H as <-; reflexivity.
Qed.

(* ----------------------------------------------------------------- *)
(** *** The diversity term under a uniform scaling *)

(** The source computes the mean of the matrix of pairwise distances of the
    flattened atoms. *)
Lemma diversity_reward_entry (p : tensor) (B N : nat) :
  shape p = [B; N; 3; 3]%nat -> (0 < B)%nat ->
  exists d, diversity_reward p = Ok d /\ shape d = [B] /\
    forall e, get d [e] = pairwise_mean (atom p B N e) (N * 3).
Proof.
  intros Hs HB. unfold diversity_reward.
  rewrite (reshape_atoms p B N Hs HB); cbn [bind].
  eexists; split; [reflexivity|]. split; reflexivity.
Qed.

Lemma distance_R_nonneg (r : nat -> nat -> R) (i j : nat) :
  0 <= distance_R r i j.
Proof. apply sqrt_pos. Qed.

Lemma sum_squares_nonneg (r : nat -> nat -> R) (i j : nat) (l : list nat) :
  0 <= Rsum (map (fun c => (r i c - r j c) * (r i c - r j c)) l).
Proof.
  apply Rsum_nonneg, Forall_forall. intros x Hx.
  apply in_map_iff in Hx as (c & <- & _).
  exact (Rle_0_sqr (r i c - r j c)).
Qed.

(** On finite coordinates the entries are the real pairwise mean. *)
Lemma pairwise_mean_finite (x : nat -> nat -> num) (r : nat -> nat -> R)
    (P : nat) :
  (forall i c, x i c = Fin (r i c)) -> (0 < P)%nat ->
  pairwise_mean x P = Fin (pairwise_mean_R r P).
Proof.
  intros Hx HP. unfold pairwise_mean, pairwise_mean_R.
  assert (Hd : forall i j,
             sqrt (sum_list
                     (map (fun c => mul (sub (x i c) (x j c))
                                        (sub (x i c) (x j c))) (seq 0 3)))
             = Fin (distance_R r i j)).
  { intros i j. unfold distance_R.
    rewrite (map_ext _ (fun c => Fin ((r i c - r j c) * (r i c - r j c)))).
    - rewrite <- map_map, sum_list_Fin. cbn [sqrt].
      rewrite Rltb_false; [reflexivity|].
      pose proof (sum_squares_nonneg r i j (seq 0 3)). lra.
    - intros c. rewrite !Hx. reflexivity. }
  rewrite (map_ext _ (fun i =>
             Fin (Rsum (map (fun j => distance_R r i j) (seq 0 P))))).
  - rewrite <- map_map, sum_list_Fin. unfold of_nat. cbn [div].
    rewrite Reqb_false; [reflexivity|].
    apply not_0_INR. nia.
  - intros i.
    rewrite (map_ext _ (fun j => Fin (distance_R r i j))) by apply Hd.
    now rewrite <- map_map, sum_list_Fin.
Qed.

Lemma distance_R_scale (r : nat -> nat -> R) (i j : nat) :
  distance_R (fun i c => 2 * r i c) i j = 2 * distance_R r i j.
Proof.
  unfold distance_R.
  rewrite (map_ext _ (fun c => 4 * ((r i c - r j c) * (r i c - r j c))))
    by (intros c; ring).
  rewrite (Rsum_scal 4 nat (fun c => (r i c - r j c) * (r i c - r j c))).
  rewrite sqrt_mult_alt by lra.
  replace 4 with (2 * 2) by lra. rewrite sqrt_square by lra. reflexivity.
Qed.

Lemma pairwise_mean_R_scale (r : nat -> nat -> R) (P : nat) :
  pairwise_mean_R (fun i c => 2 * r i c) P = 2 * pairwise_mean_R r P.
Proof.
  unfold pairwise_mean_R.
  rewrite (map_ext _ (fun i =>
             2 * Rsum (map (fun j => distance_R r i j) (seq 0 P)))).
  - rewrite (Rsum_scal 2 nat
               (fun i => Rsum (map (fun j => distance_R r i j) (seq 0 P)))).
    unfold Rdiv. ring.
  - intros i.
    rewrite (map_ext _ (fun j => 2 * distance_R r i j))
      by (intros j; apply distance_R_scale).
    apply (Rsum_scal 2 nat (fun j => distance_R r i j)).
Qed.

Lemma pairwise_mean_R_nonneg (r : nat -> nat -> R) (P : nat) :
  0 <= pairwise_mean_R r P.
Proof.
  unfold pairwise_mean_R, Rdiv.
  apply Rmult_le_pos.
  - apply Rsum_nonneg, Forall_forall. intros x Hx.
    apply in_map_iff in Hx as (i & <- & _).
    apply Rsum_nonneg, Forall_forall. intros y Hy.
    apply in_map_iff in Hy as (j & <- & _). apply distance_R_nonneg.
  - destruct (Nat.eq_dec (P * P) 0) as [->|H].
    + cbn. rewrite Rinv_0. lra.
    + left. apply Rinv_0_lt_compat, lt_0_INR. lia.
Qed.

Lemma pairwise_mean_R_coincident (r : nat -> nat -> R) (P : nat) :
  (forall i j c, r i c = r j c) -> pairwise_mean_R r P = 0.
Proof.
  intros H. unfold pairwise_mean_R.
  rewrite Rsum_all_zero; [unfold Rdiv; ring|].
  intros i _. apply Rsum_all_zero. intros j _. unfold distance_R.
  rewrite Rsum_all_zero; [apply sqrt_0|].
  intros c _. rewrite (H i j c). ring.
Qed.

Lemma all_finite_atom (p : tensor) (B N e i c : nat) :
  all_finite p -> atom p B N e i c = Fin (to_R (atom p B N e i c)).
Proof.
  intros H. unfold atom. specialize (H (unflat [B; N; 3; 3]%nat
    (flat_index [B; (N * 3)%nat; 3%nat] [e; i; c]))).
  destruct (get p _); try discriminate. reflexivity.
Qed.

Lemma atom_scale (k : R) (p : tensor) (B N e i c : nat) :
  all_finite p ->
  atom (scale k p) B N e i c = Fin (k * to_R (atom p B N e i c)).
Proof.
  intros H. unfold atom, scale; cbn [map1 get].
  fold (atom p B N e i c). now rewrite (all_finite_atom p B N e i c H).
Qed.

(** The diversity term of a finite structure is a non-negative real, and
    the diversity term of the structure scaled by 2 is twice that. *)
Lemma diversity_scale_finite (p : tensor) (B N e : nat) :
  shape p = [B; N; 3; 3]%nat -> all_finite p ->
  (0 < N)%nat -> (e < B)%nat ->
  exists d d2,
    diversity_reward p = Ok d /\ diversity_reward (scale 2 p) = Ok d2 /\
    get d [e]
    = Fin (pairwise_mean_R (fun i c => to_R (atom p B N e i c)) (N * 3)) /\
    get d2 [e]
    = Fin (2 * pairwise_mean_R (fun i c => to_R (atom p B N e i c)) (N * 3)).
Proof.
  intros Hs Hf HN He.
  destruct (diversity_reward_entry p B N Hs) as (d & Hd & _ & Hg); [lia|].
  destruct (diversity_reward_entry (scale 2 p) B N Hs) as (d2 & Hd2 & _ & Hg2);
    [lia|].
  exists d, d2. repeat split; trivial.
  - rewrite Hg. apply pairwise_mean_finite; [|lia].
    intros i c. now apply all_finite_atom.
  - rewrite Hg2, <- pairwise_mean_R_scale.
    apply pairwise_mean_finite; [|lia].
    intros i c. now apply atom_scale.
Qed.

(* ----------------------------------------------------------------- *)
(** *** Broadcasts that occur in [model_step] *)

Ltac bcast_shape :=
  unfold broadcast_shapes;
  repeat (progress (cbn; rewrite ?bdim_same, ?bdim_1_l, ?bdim_1_r));
  cbn.

Ltac bcast_index :=
  unfold bidx; cbn;
  repeat match goal with
         | |- context [bsel 1 ?i] => rewrite (bsel_1 i)
         | |- context [bsel ?d ?i] => rewrite (bsel_lt d i) by lia
         end;
  cbn.

(** [x * m[..., None]] for [x : (B, N, C)] and [m : (B, N)]. *)
Lemma map2_unsqueeze1 (f : num -> num -> num) (x m : tensor)
    (B N C : nat) :
  shape x = [B; N; C] -> shape m = [B; N] ->
  exists r, map2 f x (unsqueeze_last m) = Ok r /\ shape r = [B; N; C] /\
    forall b n c, (b < B)%nat -> (n < N)%nat -> (c < C)%nat ->
      get r [b; n; c] = f (get x [b; n; c]) (get m [b; n]).
Proof.
  intros Hx Hm. unfold map2, unsqueeze_last; cbn. rewrite Hx, Hm.
  bcast_shape. eexists; split; [reflexivity|]. split; [reflexivity|].
  intros b n c Hb Hn Hc. cbn. bcast_index. reflexivity.
Qed.

(** [x * m[..., None, None]] for [x : (B, N, K, C)] and [m : (B, N)]. *)
Lemma map2_unsqueeze2 (f : num -> num -> num) (x m : tensor)
    (B N K C : nat) :
  shape x = [B; N; K; C] -> shape m = [B; N] ->
  exists r, map2 f x (unsqueeze_last (unsqueeze_last m)) = Ok r /\
    shape r = [B; N; K; C] /\
    forall b n k c, (b < B)%nat -> (n < N)%nat -> (k < K)%nat -> (c < C)%nat ->
      get r [b; n; k; c] = f (get x [b; n; k; c]) (get m [b; n]).
Proof.
  intros Hx Hm. unfold map2, unsqueeze_last; cbn. rewrite Hx, Hm.
  bcast_shape. eexists; split; [reflexivity|]. split; [reflexivity|].
  intros b n k c Hb Hn Hk Hc. cbn. bcast_index. reflexivity.
Qed.

(** Two vectors of one length. *)
Lemma map2_vectors (f : num -> num -> num) (x y : tensor) (B : nat) :
  shape x = [B] -> shape y = [B] ->
  exists r, map2 f x y = Ok r /\ shape r = [B] /\
    forall b, (b < B)%nat -> get r [b] = f (get x [b]) (get y [b]).
Proof.
  intros Hx Hy.
  destruct (map2_same_shape f x y) as (r & Hr & Hs & Hg); [congruence|].
  exists r. split; [exact Hr|]. split; [congruence|].
  intros b Hb. apply Hg. rewrite Hx. repeat constructor; trivial.
Qed.

Lemma sum_last3_atoms (m : tensor) (B N K C : nat) :
  shape m = [B; N; K; C] ->
  exists s, sum_last3 m = Ok s /\ shape s = [B] /\
    forall b, get s [b]
      = sum_list (map (fun n =>
          sum_list (map (fun k =>
            sum_list (map (fun c => get m [b; n; k; c]) (seq 0 C)))
            (seq 0 K))) (seq 0 N)).
Proof.
  intros Hm. unfold sum_last3, rank. rewrite Hm. cbn [length Nat.leb].
  eexists; split; [reflexivity|].
  unfold sum_last. cbn [shape]. rewrite Hm. cbn.
  split; reflexivity.
Qed.

(* ----------------------------------------------------------------- *)
(** *** The auxiliary loss *)

Lemma sum_list_ext (A : Type) (f g : A -> num) (l : list A) :
  (forall x, In x l -> f x = g x) ->
  sum_list (map f l) = sum_list (map g l).
Proof. intros H. f_equal. now apply map_ext_in. Qed.

Lemma aux_body_entry (cfg : training_cfg) (gt pred mask reward : tensor)
    (B N : nat) :
  shape gt = [B; N; 3; 3]%nat -> shape pred = [B; N; 3; 3]%nat ->
  shape mask = [B; N] -> shape reward = [B] ->
  exists a, aux_body cfg gt pred mask reward = Ok a /\ shape a = [B] /\
    forall b, (b < B)%nat ->
      get a [b] = aux_formula (aux_loss_weight cfg) gt pred mask reward N b.
Proof.
  intros Hg Hp Hm Hr. unfold aux_body, bb_atom_loss_of, tsub, tmul, tdiv.
  destruct (map2_same_shape sub gt pred) as (d & -> & Hd & Hdg);
    [congruence|]; cbn [bind].
  rewrite Hg in Hd, Hdg.
  destruct (map2_unsqueeze2 mul (square d) mask B N 3 3 Hd Hm)
    as (m & -> & Hms & Hmg); cbn [bind].
  destruct (sum_last3_atoms m B N 3 3 Hms) as (s & -> & Hss & Hsg);
    cbn [bind].
  destruct (sum_last_matrix mask B N Hm) as (Hcs & Hcg).
  destruct (map2_vectors div s
              (map1 (fun x => mul x (Fin 3)) (sum_last mask)) B Hss Hcs)
    as (q & -> & Hqs & Hqg); cbn [bind].
  destruct (map2_vectors mul
              (map1 (fun x => mul x (Fin (aux_loss_weight cfg))) q)
              reward B Hqs Hr)
    as (a & -> & Has & Hag); cbn [bind].
  eexists; split; [reflexivity|]. split; [exact Has|].
  intros b Hb. cbn [map1 get]. rewrite (Hag b Hb). cbn [map1 get].
  rewrite (Hqg b Hb). cbn [map1 get]. rewrite Hsg, Hcg.
  unfold aux_formula. do 4 f_equal.
  apply sum_list_ext; intros n Hn; apply in_seq in Hn.
  apply sum_list_ext; intros k Hk; apply in_seq in Hk.
  apply sum_list_ext; intros c Hc; apply in_seq in Hc.
  rewrite Hmg by lia. cbn [square map1 get].
  rewrite Hdg by in_range_tac. reflexivity.
Qed.

Lemma aux_gate_value (cfg : training_cfg) (r3_t : tensor) (B : nat) (t0 : R) :
  shape r3_t = [B; 1%nat] -> (0 < B)%nat ->
  get r3_t [0%nat; 0%nat] = Fin t0 ->
  aux_gate cfg r3_t
  = Ok (Rltb 0 (aux_loss_weight cfg) && Rltb (1 / 2) t0).
Proof.
  intros Hs HB Ht. unfold aux_gate, item00. rewrite Hs.
  destruct (Rltb 0 (aux_loss_weight cfg)); [|reflexivity].
  destruct (Nat.ltb_spec 0 B); [|lia]. cbn. now rewrite Ht.
Qed.

Lemma bb_atom_loss_entry (gt pred mask : tensor) (B N : nat) :
  shape gt = [B; N; 3; 3]%nat -> shape pred = [B; N; 3; 3]%nat ->
  shape mask = [B; N] ->
  exists l, bb_atom_loss_of gt pred mask = Ok l /\ shape l = [B] /\
    forall b, (b < B)%nat -> get l [b] = bb_atom_formula gt pred mask N b.
Proof.
  intros Hg Hp Hm. unfold bb_atom_loss_of, tsub, tmul, tdiv.
  destruct (map2_same_shape sub gt pred) as (d & -> & Hd & Hdg);
    [congruence|]; cbn [bind].
  rewrite Hg in Hd, Hdg.
  destruct (map2_unsqueeze2 mul (square d) mask B N 3 3 Hd Hm)
    as (m & -> & Hms & Hmg); cbn [bind].
  destruct (sum_last3_atoms m B N 3 3 Hms) as (s & -> & Hss & Hsg);
    cbn [bind].
  destruct (sum_last_matrix mask B N Hm) as (Hcs & Hcg).
  destruct (map2_vectors div s
              (map1 (fun x => mul x (Fin 3)) (sum_last mask)) B Hss Hcs)
    as (q & -> & Hqs & Hqg).
  exists q. split; [reflexivity|]. split; [exact Hqs|].
  intros b Hb. rewrite (Hqg b Hb). cbn [map1 get]. rewrite Hsg, Hcg.
  unfold bb_atom_formula. f_equal.
  apply sum_list_ext; intros n Hn; apply in_seq in Hn.
  apply sum_list_ext; intros k Hk; apply in_seq in Hk.
  apply sum_list_ext; intros c Hc; apply in_seq in Hc.
  rewrite Hmg by lia. cbn [square map1 get].
  rewrite Hdg by in_range_tac. reflexivity.
Qed.

(** The body of the [if] for a reward of any shape: the product with the
    reward is an elementwise product with broadcasting. *)
Lemma aux_body_broadcast (cfg : training_cfg) (gt pred mask reward : tensor)
    (B N : nat) :
  shape gt = [B; N; 3; 3]%nat -> shape pred = [B; N; 3; 3]%nat ->
  shape mask = [B; N] ->
  (forall s, broadcast_shapes [B] (shape reward) = Some s ->
     exists a, aux_body cfg gt pred mask reward = Ok a /\ shape a = s /\
       forall idx e, in_range idx s -> bidx [B] idx = [e] ->
         get a idx
         = clamp_max 5
             (mul (mul (bb_atom_formula gt pred mask N e)
                       (Fin (aux_loss_weight cfg)))
                  (get reward (bidx (shape reward) idx)))) /\
  (broadcast_shapes [B] (shape reward) = None ->
   aux_body cfg gt pred mask reward = Err ShapeError).
Proof.
  intros Hg Hp Hm. unfold aux_body.
  destruct (bb_atom_loss_entry gt pred mask B N Hg Hp Hm)
    as (l & -> & Hls & Hlg); cbn [bind].
  split.
  - intros s Hs. unfold tmul.
    destruct (map2_broadcast mul
                (map1 (fun x => mul x (Fin (aux_loss_weight cfg))) l)
                reward s) as (a & -> & Has & Hag);
      [cbn [map1 shape]; now rewrite Hls|]; cbn [bind].
    eexists; split; [reflexivity|]. split; [exact Has|].
    intros idx e Hr He. cbn [map1 get]. rewrite Hag. cbn [map1 get shape].
    rewrite Hls, He. rewrite Hlg; [reflexivity|].
    pose proof (bidx_in_range_l [B] (shape reward) s idx Hs Hr) as Hin.
    rewrite He in Hin. inversion Hin; subst; trivial.
  - intros Hs. unfold tmul. rewrite map2_refused; [reflexivity|].
    cbn [map1 shape]. now rewrite Hls.
Qed.

(** C8 (amended).  The auxiliary loss is gated for the whole batch by the
    translation time of the first example.  When the auxiliary weight is
    positive and that time exceeds 1/2, the auxiliary loss is the masked
    coordinate regression loss multiplied by the weight and by the reward
    and clamped at 5: every entry is the clamped product of the regression
    loss of an example [e], the weight and an entry of the reward, the two
    being the entries that broadcasting pairs; the block raises when the
    reward does not broadcast against one value per example.  Otherwise the
    auxiliary loss is the number 0. *)
Theorem auxiliary_loss_gated_by_first_time
    (cfg : training_cfg) (r3_t gt pred mask reward : tensor)
    (B N : nat) (t0 : R) :
  shape r3_t = [B; 1%nat] -> (0 < B)%nat ->
  get r3_t [0%nat; 0%nat] = Fin t0 ->
  shape gt = [B; N; 3; 3]%nat -> shape pred = [B; N; 3; 3]%nat ->
  shape mask = [B; N] ->
  (0 < aux_loss_weight cfg /\ 1 / 2 < t0 ->
   (forall s, broadcast_shapes [B] (shape reward) = Some s ->
      exists a,
        auxiliary_loss_of cfg r3_t (Ok gt) pred mask reward = Ok a /\
        shape a = s /\
        forall idx e, in_range idx s -> bidx [B] idx = [e] ->
          get a idx
          = clamp_max 5
              (mul (mul (bb_atom_formula gt pred mask N e)
                        (Fin (aux_loss_weight cfg)))
                   (get reward (bidx (shape reward) idx)))) /\
   (broadcast_shapes [B] (shape reward) = None ->
    auxiliary_loss_of cfg r3_t (Ok gt) pred mask reward = Err ShapeError))
  /\
  (~ (0 < aux_loss_weight cfg /\ 1 / 2 < t0) ->
   auxiliary_loss_of cfg r3_t (Ok gt) pred mask reward
   = Ok (scalar (Fin 0))).
Proof.
  intros Hs HB Ht Hg Hp Hm. unfold auxiliary_loss_of.
  rewrite (aux_gate_value cfg r3_t B t0 Hs HB Ht); cbn [bind].
  split.
  - intros [Hw Ht0]. rewrite !Rltb_true by trivial. cbn [andb bind].
    now apply aux_body_broadcast.
  - intros Hn. unfold Rltb.
    destruct (Rlt_dec 0 (aux_loss_weight cfg)); [|reflexivity].
    destruct (Rlt_dec (1 / 2) t0); [|reflexivity].
    elim Hn; now split.
Qed.

Lemma auxiliary_loss_gated_by_first_time_witness :
  (0 < aux_loss_weight cfg_ones /\ 1 / 2 < 9 / 10 ->
   (forall s, broadcast_shapes [2%nat] (shape (full [2; 2]%nat (Fin 1))) = Some s ->
      exists a,
        auxiliary_loss_of cfg_ones times_high_low
          (Ok (full [2; 2; 3; 3]%nat (Fin 1)))
          (full [2; 2; 3; 3]%nat (Fin 0)) (full [2; 2]%nat (Fin 1))
          (full [2; 2]%nat (Fin 1)) = Ok a /\
        shape a = s /\
        forall idx e, in_range idx s -> bidx [2%nat] idx = [e] ->
          get a idx
          = clamp_max 5
              (mul (mul (bb_atom_formula (full [2; 2; 3; 3]%nat (Fin 1))
                           (full [2; 2; 3; 3]%nat (Fin 0))
                           (full [2; 2]%nat (Fin 1)) 2 e)
                        (Fin (aux_loss_weight cfg_ones)))
                   (get (full [2; 2]%nat (Fin 1))
                      (bidx (shape (full [2; 2]%nat (Fin 1))) idx)))) /\
   (broadcast_shapes [2%nat] (shape (full [2; 2]%nat (Fin 1))) = None ->
    auxiliary_loss_of cfg_ones times_high_low
      (Ok (full [2; 2; 3; 3]%nat (Fin 1)))
      (full [2; 2; 3; 3]%nat (Fin 0)) (full [2; 2]%nat (Fin 1))
      (full [2; 2]%nat (Fin 1)) = Err ShapeError))
  /\
  (~ (0 < aux_loss_weight cfg_ones /\ 1 / 2 < 9 / 10) ->
   auxiliary_loss_of cfg_ones times_high_low
     (Ok (full [2; 2; 3; 3]%nat (Fin 1)))
     (full [2; 2; 3; 3]%nat (Fin 0)) (full [2; 2]%nat (Fin 1))
     (full [2; 2]%nat (Fin 1))
   = Ok (scalar (Fin 0))).
Proof.
  apply (auxiliary_loss_gated_by_first_time cfg_ones times_high_low
           (full [2; 2; 3; 3]%nat (Fin 1)) (full [2; 2; 3; 3]%nat (Fin 0))
           (full [2; 2]%nat (Fin 1)) (full [2; 2]%nat (Fin 1)) 2 2 (9 / 10)).
  - reflexivity.
  - lia.
  - reflexivity.
  - reflexivity.
  - reflexivity.
  - reflexivity.
Defined.

(** With the reward that the source computes for two examples of two
    residues, of shape [(2, 2)], the open gate gives a matrix: the entry
    [(i, j)] is the regression loss of example [j] times the reward entry
    [(i, j)]. *)
Lemma auxiliary_loss_with_matrix_reward :
  exists a,
    auxiliary_loss_of cfg_ones times_high_low
      (Ok (full [2; 2; 3; 3]%nat (Fin 1)))
      (full [2; 2; 3; 3]%nat (Fin 0)) (full [2; 2]%nat (Fin 1))
      (full [2; 2]%nat (Fin 1)) = Ok a /\
    shape a = [2; 2]%nat /\
    forall i j, (i < 2)%nat -> (j < 2)%nat -> get a [i; j] = Fin 3.
Proof.
  pose proof (aux_gate_value cfg_ones times_high_low 2 (9 / 10)
                eq_refl ltac:(lia) eq_refl) as G.
  destruct (aux_body_broadcast cfg_ones (full [2; 2; 3; 3]%nat (Fin 1))
              (full [2; 2; 3; 3]%nat (Fin 0)) (full [2; 2]%nat (Fin 1))
              (full [2; 2]%nat (Fin 1)) 2 2 eq_refl eq_refl eq_refl)
    as [H _].
  destruct (H [2; 2]%nat eq_refl) as (a & Ha & Hs & Hg).
  exists a. split; [|split; [exact Hs|]].
  - unfold auxiliary_loss_of. rewrite G. cbn [aux_loss_weight cfg_ones].
    rewrite !Rltb_true by lra. cbn [andb bind]. exact Ha.
  - intros i j Hi Hj. rewrite (Hg [i; j] j).
    + unfold bb_atom_formula. cbn.
      rewrite Reqb_false by lra. cbn. rewrite Rltb_false by lra.
      f_equal. field.
    + in_range_tac.
    + unfold bidx; cbn. now rewrite bsel_lt.
Qed.

(** C8 as stated fails.  In a batch whose first example is at time 3/10 and
    whose second example is at time 9/10, with auxiliary weight 1, the time
    of the second example exceeds 1/2 and yet the auxiliary loss is 0. *)
Lemma auxiliary_loss_ignores_later_times :
  get times_low_high [1%nat; 0%nat] = Fin (9 / 10) /\
  1 / 2 < 9 / 10 /\
  0 < aux_loss_weight cfg_ones /\
  auxiliary_loss_of cfg_ones times_low_high
    (Ok (full [2; 2; 3; 3]%nat (Fin 1)))
    (full [2; 2; 3; 3]%nat (Fin 0)) (full [2; 2]%nat (Fin 1))
    (full [2; 2]%nat (Fin 1))
  = Ok (scalar (Fin 0)).
Proof.
  split; [reflexivity|]. split; [lra|]. split; [cbn; lra|].
  unfold auxiliary_loss_of.
  rewrite (aux_gate_value cfg_ones times_low_high 2 (3 / 10));
    [|reflexivity|lia|reflexivity].
  cbn [aux_loss_weight cfg_ones].
  rewrite Rltb_true by lra. rewrite Rltb_false by lra. reflexivity.
Qed.

(* ----------------------------------------------------------------- *)
(** *** The translation drift and the translation loss *)

(** [x op y] for [x : (B, N, C)] and [y : (B, 1, 1)]. *)
Lemma map2_per_example (f : num -> num -> num) (x y : tensor) (B N C : nat) :
  shape x = [B; N; C] -> shape y = [B; 1; 1]%nat ->
  exists r, map2 f x y = Ok r /\ shape r = [B; N; C] /\
    forall b n c, (b < B)%nat -> (n < N)%nat -> (c < C)%nat ->
      get r [b; n; c] = f (get x [b; n; c]) (get y [b; 0; 0]%nat).
Proof.
  intros Hx Hy. unfold map2. rewrite Hx, Hy.
  bcast_shape. eexists; split; [reflexivity|]. split; [reflexivity|].
  intros b n c Hb Hn Hc. cbn. bcast_index. reflexivity.
Qed.







(** The drift for a reward of any shape: the product with
    [reward[..., None, None]] is an elementwise product with
    broadcasting. *)
Lemma trans_drift_broadcast (pred reward x t : tensor) (B N : nat) :
  shape pred = [B; N; 3%nat] -> shape x = [B; N; 3%nat] ->
  shape t = [B; 1%nat] ->
  (forall s,
     broadcast_shapes [B; N; 3%nat]
       (shape (unsqueeze_last (unsqueeze_last reward))) = Some s ->
     exists vf, trans_drift pred reward x t = Ok vf /\ shape vf = s /\
       forall idx b n c, in_range idx s -> bidx [B; N; 3%nat] idx = [b; n; c] ->
         get vf idx
         = drift_tr (get pred [b; n; c]) (get x [b; n; c]) (get t [b; 0%nat])
             (get (unsqueeze_last (unsqueeze_last reward))
                  (bidx (shape (unsqueeze_last (unsqueeze_last reward)))
                        idx))) /\
  (broadcast_shapes [B; N; 3%nat]
     (shape (unsqueeze_last (unsqueeze_last reward))) = None ->
   trans_drift pred reward x t = Err ShapeError).
Proof.
  intros Hp Hx Ht. unfold trans_drift, tsub, tdiv.
  destruct (map2_same_shape sub pred x) as (d & -> & Hd & Hdg);
    [congruence|]; cbn [bind].
  rewrite Hp in Hd, Hdg.
  destruct (map2_per_example div d (map1 (sub (Fin 1)) (unsqueeze_last t))
              B N 3 Hd) as (q & -> & Hq & Hqg);
    [cbn; now rewrite Ht|]; cbn [bind].
  split.
  - intros s Hs. unfold tmul.
    destruct (map2_broadcast mul q (unsqueeze_last (unsqueeze_last reward)) s)
      as (vf & -> & Hv & Hvg); [now rewrite Hq|].
    exists vf. split; [reflexivity|]. split; [exact Hv|].
    intros idx b n c Hr Hb. rewrite Hvg, Hq, Hb.
    pose proof (bidx_in_range_l _ _ s idx Hs Hr) as Hin.
    rewrite Hb in Hin.
    inversion Hin as [|? ? ? ? Hb' Hin1]; subst.
    inversion Hin1 as [|? ? ? ? Hn' Hin2]; subst.
    inversion Hin2 as [|? ? ? ? Hc' _]; subst.
    rewrite Hqg, Hdg by first [lia | in_range_tac]. reflexivity.
  - intros Hs. unfold tmul. rewrite map2_refused; [reflexivity|].
    now rewrite Hq.
Qed.

(** [sigma_t[..., None, None] * adjoint] has one block per pair of
    examples. *)
Lemma sigma_costate_product (sigma adjoint : tensor) (B N : nat) :
  shape sigma = [B; 1%nat] -> shape adjoint = [B; N; 3%nat] ->
  exists sa,
    tmul (unsqueeze_last (unsqueeze_last sigma)) adjoint = Ok sa /\
    shape sa = [B; B; N; 3%nat] /\
    forall i j n c, (i < B)%nat -> (j < B)%nat -> (n < N)%nat -> (c < 3)%nat ->
      get sa [i; j; n; c]
      = mul (get sigma [i; 0%nat]) (get adjoint [j; n; c]).
Proof.
  intros Hs Ha. unfold tmul, map2, unsqueeze_last.
  cbn. rewrite Hs, Ha. bcast_shape.
  eexists; split; [reflexivity|]. split; [reflexivity|].
  intros i j n c Hi Hj Hn Hc. cbn. bcast_index. reflexivity.
Qed.

(** [x * m[..., None]] for [x : (E, J, N, C)] and [m : (B, N)], where [J]
    is [B] or [B] is 1. *)
Lemma map2_leading_mask (f : num -> num -> num) (x m : tensor)
    (B E J N C : nat) :
  shape x = [E; J; N; C] -> shape m = [B; N] -> bdim J B = Some J ->
  exists r, map2 f x (unsqueeze_last m) = Ok r /\ shape r = [E; J; N; C] /\
    forall i j n c, (i < E)%nat -> (j < J)%nat -> (n < N)%nat -> (c < C)%nat ->
      get r [i; j; n; c] = f (get x [i; j; n; c]) (get m [bsel B j; n]).
Proof.
  intros Hx Hm HJ. unfold map2, unsqueeze_last; cbn. rewrite Hx, Hm.
  unfold broadcast_shapes; cbn. rewrite HJ, bdim_same, bdim_1_r. cbn.
  eexists; split; [reflexivity|]. split; [reflexivity|].
  intros i j n c Hi Hj Hn Hc. cbn. unfold bidx; cbn.
  now rewrite (bsel_lt E i), (bsel_lt J j), (bsel_lt N n), (bsel_lt C c)
    by lia.
Qed.

Lemma sum_last2_leading (m : tensor) (E J N C : nat) :
  shape m = [E; J; N; C] ->
  exists s, sum_last2 m = Ok s /\ shape s = [E; J] /\
    forall i j, get s [i; j]
      = sum_list (map (fun n =>
          sum_list (map (fun c => get m [i; j; n; c]) (seq 0 C)))
          (seq 0 N)).
Proof.
  intros Hm. unfold sum_last2, rank. rewrite Hm. cbn [length Nat.leb].
  eexists; split; [reflexivity|].
  unfold sum_last. cbn [shape]. rewrite Hm. cbn.
  split; reflexivity.
Qed.

(** [x / y] for [x : (E, J)] and [y : (B)]. *)
Lemma map2_leading_vector (f : num -> num -> num) (x y : tensor)
    (B E J : nat) :
  shape x = [E; J] -> shape y = [B] -> bdim J B = Some J ->
  exists r, map2 f x y = Ok r /\ shape r = [E; J] /\
    forall i j, (i < E)%nat -> (j < J)%nat ->
      get r [i; j] = f (get x [i; j]) (get y [bsel B j]).
Proof.
  intros Hx Hy HJ. unfold map2. rewrite Hx, Hy.
  unfold broadcast_shapes; cbn. rewrite HJ. cbn.
  eexists; split; [reflexivity|]. split; [reflexivity|].
  intros i j Hi Hj. cbn. unfold bidx; cbn.
  now rewrite (bsel_lt E i), (bsel_lt J j) by lia.
Qed.

(** The translation loss for a drift tensor of any shape that broadcasts
    against [sigma_t[..., None, None] * adjoint] to a tensor of shape
    [(E, J, N, 3)]. *)
Lemma trans_loss_broadcast (cfg : training_cfg)
    (vf sigma adjoint mask : tensor) (B N E J : nat) :
  shape sigma = [B; 1%nat] -> shape adjoint = [B; N; 3%nat] ->
  shape mask = [B; N] ->
  broadcast_shapes (shape vf) [B; B; N; 3%nat] = Some [E; J; N; 3%nat] ->
  bdim J B = Some J ->
  exists tl, trans_loss_of cfg vf sigma adjoint mask = Ok tl /\
    shape tl = [E; J] /\
    forall i j, (i < E)%nat -> (j < J)%nat ->
      get tl [i; j]
      = broadcast_trans_loss (translation_loss_weight cfg)
          vf sigma adjoint mask B N i j.
Proof.
  intros Hs Ha Hm Hb HJ. unfold trans_loss_of, adjoint_term.
  destruct (sigma_costate_product sigma adjoint B N Hs Ha)
    as (sa & -> & Hsa & Hsag); cbn [bind].
  unfold tadd.
  destruct (map2_broadcast add vf sa [E; J; N; 3%nat])
    as (term & -> & Hts & Htg); [now rewrite Hsa|]; cbn [bind].
  unfold masked_mean_square, tmul, tdiv.
  destruct (map2_leading_mask mul (square term) mask B E J N 3 Hts Hm HJ)
    as (m & -> & Hms & Hmg); cbn [bind].
  destruct (sum_last2_leading m E J N 3 Hms) as (s & -> & Hss & Hsg);
    cbn [bind].
  destruct (sum_last_matrix mask B N Hm) as (Hcs & Hcg).
  destruct (map2_leading_vector div
              (map1 (mul (Fin (translation_loss_weight cfg))) s)
              (sum_last mask) B E J Hss Hcs HJ)
    as (q & -> & Hqs & Hqg); cbn [bind].
  eexists; split; [reflexivity|]. split; [exact Hqs|].
  intros i j Hi Hj. cbn [map1 get]. rewrite Hqg by lia. cbn [map1 get].
  rewrite Hsg, Hcg. unfold broadcast_trans_loss, valid_count. do 3 f_equal.
  apply sum_list_ext; intros n Hn; apply in_seq in Hn.
  apply sum_list_ext; intros c Hc; apply in_seq in Hc.
  rewrite Hmg by lia. cbn [square map1 get]. rewrite Htg, Hsa.
  assert (Hin : in_range (bidx [B; B; N; 3%nat] [i; j; n; c])
                  [B; B; N; 3%nat]).
  { apply (bidx_in_range_r (shape vf) [B; B; N; 3%nat] [E; J; N; 3%nat]);
      [exact Hb|in_range_tac]. }
  unfold bidx in Hin |- * at 2 4. cbn in Hin |- *.
  rewrite (bsel_lt N n), (bsel_lt 3 c) in Hin |- * by lia.
  inversion Hin as [|? ? ? ? Hi' Hin1]; subst.
  inversion Hin1 as [|? ? ? ? Hj' _]; subst.
  rewrite Hsag by lia. reflexivity.
Qed.

(** For a drift of one value per example, residue and coordinate the
    entries are those of [weighted_trans_loss]. *)
Lemma broadcast_trans_loss_per_example (w : R)
    (vf sigma adjoint mask : tensor) (B N i j : nat) :
  shape vf = [B; N; 3%nat] -> (i < B)%nat -> (j < B)%nat ->
  broadcast_trans_loss w vf sigma adjoint mask B N i j
  = weighted_trans_loss w vf sigma adjoint mask N i j.
Proof.
  intros Hv Hi Hj. unfold broadcast_trans_loss, weighted_trans_loss,
    masked_square_sum. rewrite !(bsel_lt B) by lia. do 3 f_equal.
  apply sum_list_ext; intros n Hn; apply in_seq in Hn.
  apply sum_list_ext; intros c Hc; apply in_seq in Hc.
  rewrite Hv. unfold bidx; cbn.
  now rewrite (bsel_lt B j), (bsel_lt N n), (bsel_lt 3 c) by lia.
Qed.

(** C2 (amended).  The translation loss is the masked sum of squares of
    [drift + sigma * costate], multiplied by the configured translation
    weight, divided by the number of valid residues and clamped at 5, where
    every entry of the drift is [(pred - x) / (1 - t) * reward] at the
    residue and at the entry of [reward[..., None, None]] that broadcasting
    pairs.  This holds for a reward of any shape that broadcasts: [s] is the
    shape of the drift and [(E, J)] the shape of the loss. *)
Theorem translation_loss_is_weighted
    (cfg : training_cfg)
    (pred reward x t sigma adjoint mask : tensor)
    (B N E J : nat) (s : list nat) :
  shape pred = [B; N; 3%nat] -> shape x = [B; N; 3%nat] ->
  shape t = [B; 1%nat] ->
  shape sigma = [B; 1%nat] -> shape adjoint = [B; N; 3%nat] ->
  shape mask = [B; N] ->
  broadcast_shapes [B; N; 3%nat]
    (shape (unsqueeze_last (unsqueeze_last reward))) = Some s ->
  broadcast_shapes s [B; B; N; 3%nat] = Some [E; J; N; 3%nat] ->
  bdim J B = Some J ->
  exists vf tl,
    trans_drift pred reward x t = Ok vf /\ shape vf = s /\
    trans_loss_of cfg vf sigma adjoint mask = Ok tl /\ shape tl = [E; J] /\
    (forall idx b n c, in_range idx s -> bidx [B; N; 3%nat] idx = [b; n; c] ->
       get vf idx
       = drift_tr (get pred [b; n; c]) (get x [b; n; c]) (get t [b; 0%nat])
           (get (unsqueeze_last (unsqueeze_last reward))
                (bidx (shape (unsqueeze_last (unsqueeze_last reward))) idx)))
    /\
    (forall i j, (i < E)%nat -> (j < J)%nat ->
       get tl [i; j]
       = clamp_max 5
           (div (mul (Fin (translation_loss_weight cfg))
                   (sum_list (map (fun n =>
                      sum_list (map (fun c =>
                        mul (mul (add (get vf (bidx s [i; j; n; c]))
                                      (mul (get sigma [bsel B i; 0%nat])
                                           (get adjoint [bsel B j; n; c])))
                                 (add (get vf (bidx s [i; j; n; c]))
                                      (mul (get sigma [bsel B i; 0%nat])
                                           (get adjoint [bsel B j; n; c]))))
                            (get mask [bsel B j; n]))
                        (seq 0 3)))
                      (seq 0 N))))
                (valid_count mask N (bsel B j)))).
Proof.
  intros Hp Hx Ht Hs Ha Hm Hb1 Hb2 HJ.
  destruct (trans_drift_broadcast pred reward x t B N Hp Hx Ht) as [Hd _].
  destruct (Hd s Hb1) as (vf & Hvf & Hvs & Hvg).
  destruct (trans_loss_broadcast cfg vf sigma adjoint mask B N E J Hs Ha Hm)
    as (tl & Htl & Hts & Htg); [now rewrite Hvs|exact HJ|].
  exists vf, tl. split; [exact Hvf|]. split; [exact Hvs|].
  split; [exact Htl|]. split; [exact Hts|]. split; [exact Hvg|].
  intros i j Hi Hj. rewrite (Htg i j Hi Hj).
  unfold broadcast_trans_loss. now rewrite Hvs.
Qed.

Lemma translation_loss_is_weighted_witness :
  exists vf tl,
    trans_drift (full [2; 2; 3]%nat (Fin (1 / 4))) (full [2; 2]%nat (Fin 1))
      (full [2; 2; 3]%nat (Fin 0)) (full [2; 1]%nat (Fin (1 / 2))) = Ok vf /\
    shape vf = [2; 2; 2; 3]%nat /\
    trans_loss_of cfg_double vf (full [2; 1]%nat (Fin 1))
      (full [2; 2; 3]%nat (Fin 0)) (full [2; 2]%nat (Fin 1)) = Ok tl /\
    shape tl = [2; 2]%nat /\
    (forall idx b n c,
       in_range idx [2; 2; 2; 3]%nat -> bidx [2; 2; 3]%nat idx = [b; n; c] ->
       get vf idx
       = drift_tr (get (full [2; 2; 3]%nat (Fin (1 / 4))) [b; n; c])
           (get (full [2; 2; 3]%nat (Fin 0)) [b; n; c])
           (get (full [2; 1]%nat (Fin (1 / 2))) [b; 0%nat])
           (get (unsqueeze_last (unsqueeze_last (full [2; 2]%nat (Fin 1))))
                (bidx (shape (unsqueeze_last
                                (unsqueeze_last (full [2; 2]%nat (Fin 1)))))
                      idx)))
    /\
    (forall i j, (i < 2)%nat -> (j < 2)%nat ->
       get tl [i; j]
       = clamp_max 5
           (div (mul (Fin (translation_loss_weight cfg_double))
                   (sum_list (map (fun n =>
                      sum_list (map (fun c =>
                        mul (mul (add (get vf (bidx [2; 2; 2; 3]%nat
                                                 [i; j; n; c]))
                                      (mul (get (full [2; 1]%nat (Fin 1))
                                              [bsel 2 i; 0%nat])
                                           (get (full [2; 2; 3]%nat (Fin 0))
                                              [bsel 2 j; n; c])))
                                 (add (get vf (bidx [2; 2; 2; 3]%nat
                                                 [i; j; n; c]))
                                      (mul (get (full [2; 1]%nat (Fin 1))
                                              [bsel 2 i; 0%nat])
                                           (get (full [2; 2; 3]%nat (Fin 0))
                                              [bsel 2 j; n; c]))))
                            (get (full [2; 2]%nat (Fin 1)) [bsel 2 j; n]))
                        (seq 0 3)))
                      (seq 0 2))))
                (valid_count (full [2; 2]%nat (Fin 1)) 2 (bsel 2 j)))).
Proof.
  apply (translation_loss_is_weighted cfg_double
           (full [2; 2; 3]%nat (Fin (1 / 4))) (full [2; 2]%nat (Fin 1))
           (full [2; 2; 3]%nat (Fin 0)) (full [2; 1]%nat (Fin (1 / 2)))
           (full [2; 1]%nat (Fin 1)) (full [2; 2; 3]%nat (Fin 0))
           (full [2; 2]%nat (Fin 1)) 2 2 2 2 [2; 2; 2; 3]%nat).
  - reflexivity.
  - reflexivity.
  - reflexivity.
  - reflexivity.
  - reflexivity.
  - reflexivity.
  - reflexivity.
  - reflexivity.
  - reflexivity.
Defined.

Lemma mul_one_l (a : num) : mul (Fin 1) a = a.
Proof.
  destruct a; cbn; trivial.
  - f_equal; ring.
  - unfold mul_inf. rewrite Reqb_false, Rltb_true by lra. reflexivity.
  - unfold mul_inf. rewrite Reqb_false, Rltb_true by lra. reflexivity.
Qed.

(** With translation weight 1 the loss is the formula of the
    specification. *)
Lemma weighted_trans_loss_one (vf sigma adjoint mask : tensor) (N b : nat) :
  weighted_trans_loss 1 vf sigma adjoint mask N b b
  = spec_trans_loss vf sigma adjoint mask N b.
Proof. unfold weighted_trans_loss, spec_trans_loss. now rewrite mul_one_l. Qed.

(** C2 as stated fails.  One example of one residue, prediction 1/4, state
    0, time 1/2, reward 1, noise coefficient 1, costate 0: the drift is 1/2
    at each coordinate and the formula of the claim gives 3/4; with
    translation weight 2 the source returns 3/2. *)
Lemma translation_loss_with_weight_two :
  exists vf tl,
    trans_drift (full [1; 1; 3]%nat (Fin (1 / 4))) (full [1; 1]%nat (Fin 1))
      (full [1; 1; 3]%nat (Fin 0)) t_half = Ok vf /\
    trans_loss_of cfg_double vf (full [1; 1]%nat (Fin 1))
      (full [1; 1; 3]%nat (Fin 0)) (full [1; 1]%nat (Fin 1)) = Ok tl /\
    shape tl = [1; 1]%nat /\
    get tl [0%nat; 0%nat] = Fin (3 / 2) /\
    spec_trans_loss
      (full [1; 1; 3]%nat
         (drift_tr (Fin (1 / 4)) (Fin 0) (Fin (1 / 2)) (Fin 1)))
      (full [1; 1]%nat (Fin 1))
      (full [1; 1; 3]%nat (Fin 0)) (full [1; 1]%nat (Fin 1)) 1 0
    = Fin (3 / 4) /\
    3 / 2 <> 3 / 4.
Proof.
  destruct (trans_drift_broadcast (full [1; 1; 3]%nat (Fin (1 / 4)))
              (full [1; 1]%nat (Fin 1)) (full [1; 1; 3]%nat (Fin 0)) t_half
              1 1 eq_refl eq_refl eq_refl) as [Hd _].
  destruct (Hd [1; 1; 1; 3]%nat eq_refl) as (vf & Hvf & Hvs & Hvg).
  destruct (trans_loss_broadcast cfg_double vf (full [1; 1]%nat (Fin 1))
              (full [1; 1; 3]%nat (Fin 0)) (full [1; 1]%nat (Fin 1)) 1 1 1 1
              eq_refl eq_refl eq_refl)
    as (tl & Htl & Hts & Htg); [now rewrite Hvs|reflexivity|].
  assert (Hhalf : drift_tr (Fin (1 / 4)) (Fin 0) (Fin (1 / 2)) (Fin 1)
                  = Fin (1 / 2)).
  { unfold drift_tr; cbn. rewrite Reqb_false by lra. cbn. f_equal. field. }
  assert (Hv : forall c, (c < 3)%nat ->
             get vf [0%nat; 0%nat; 0%nat; c] = Fin (1 / 2)).
  { intros c Hc. rewrite (Hvg [0; 0; 0; c]%nat 0%nat 0%nat c).
    - exact Hhalf.
    - in_range_tac.
    - unfold bidx; cbn. now rewrite (bsel_lt 3 c). }
  exists vf, tl. split; [exact Hvf|]. split; [exact Htl|].
  split; [exact Hts|]. split; [|split; [|lra]].
  - rewrite Htg by lia. unfold broadcast_trans_loss, valid_count.
    rewrite Hvs. unfold bidx; cbn. unfold bsel; cbn.
    rewrite !Hv by lia. cbn.
    rewrite Reqb_false by lra. cbn. rewrite Rltb_false by lra.
    f_equal. field.
  - unfold spec_trans_loss, masked_square_sum, valid_count. cbn [full get].
    rewrite Hhalf. cbn.
    rewrite Reqb_false by lra. cbn. rewrite Rltb_false by lra.
    f_equal. field.
Qed.

(* ----------------------------------------------------------------- *)
(** *** The adjoint solver *)

(** The grid: 20 points from 1 to 0, 19 intervals of length 1/19, walked
    backwards. *)
Lemma timesteps_length : length timesteps = 20%nat.
Proof. reflexivity. Qed.

Lemma loop_times :
  removelast timesteps
  = map (fun k => Fin (1 + INR k * ((0 - 1) / INR (20 - 1)))) (seq 0 19).
Proof. reflexivity. Qed.

Lemma loop_times_length : length (removelast timesteps) = 19%nat.
Proof. reflexivity. Qed.

Lemma dt_value : dt = Fin (- (1 / 19)).
Proof.
  unfold dt, timesteps, linspace. cbn -[INR]. f_equal.
  replace (INR 19) with 19 by (rewrite INR_IZR_INZ; reflexivity).
  replace (INR 1) with 1 by reflexivity.
  replace (INR 0) with 0 by reflexivity. field.
Qed.

(** [torch.autograd.grad] returns a gradient of the shape of [curr_x], so
    the letters [i j m] of the [einsum] name the example, residue and
    coordinate axes of the gradient, and the residue axis is matched with the
    coordinate axis of the costate. *)
Lemma einsum_residue_mismatch (g a : tensor) (B N : nat) :
  shape g = [B; N; 3%nat] -> shape a = [B; N; 3%nat] ->
  N <> 1%nat -> N <> 3%nat ->
  einsum_ijm_j g a = Err ShapeError.
Proof.
  intros Hg Ha H1 H3. unfold einsum_ijm_j, split_last3, split_last1.
  rewrite Hg, Ha. cbn. unfold broadcast_shapes. cbn.
  rewrite bdim_mismatch by lia. reflexivity.
Qed.

Lemma einsum_entry (g a : tensor) (B N : nat) :
  shape g = [B; N; 3%nat] -> shape a = [B; N; 3%nat] ->
  bdim N 3 = Some 3%nat ->
  exists e, einsum_ijm_j g a = Ok e /\ shape e = [B; N; B] /\
    forall b n i, (b < B)%nat -> (n < N)%nat ->
      get e [b; n; i] = contraction g a N b n i.
Proof.
  intros Hg Ha HN. unfold einsum_ijm_j, split_last3, split_last1.
  rewrite Hg, Ha. cbn. unfold broadcast_shapes. cbn. rewrite HN. cbn.
  eexists; split; [reflexivity|]. split; [reflexivity|].
  intros b n i Hb Hn. cbn. bcast_index. reflexivity.
Qed.

Lemma initial_costate (x_t mask : tensor) (B N : nat) :
  shape x_t = [B; N; 3%nat] -> shape mask = [B; N] ->
  exists a0, tmul (map1 neg (ones_like x_t)) (unsqueeze_last mask) = Ok a0 /\
    shape a0 = [B; N; 3%nat] /\
    forall b n c, (b < B)%nat -> (n < N)%nat -> (c < 3)%nat ->
      get a0 [b; n; c] = mul (neg one) (get mask [b; n]).
Proof.
  intros Hx Hm.
  destruct (map2_unsqueeze1 mul (map1 neg (ones_like x_t)) mask B N 3)
    as (a0 & Ha0 & Hs & Hg); trivial.
  exists a0. split; [exact Ha0|]. split; [exact Hs|].
  intros b n c Hb Hn Hc. now rewrite Hg.
Qed.

(** [a - e] for the costate [a : (B, N, 3)] and the output [e : (B, N, B)] of
    the [einsum], accepted when [B] is 1 or 3. *)
Lemma map2_costate_update (f : num -> num -> num) (a e : tensor) (B N : nat) :
  shape a = [B; N; 3%nat] -> shape e = [B; N; B] ->
  bdim 3 B = Some 3%nat ->
  exists r, map2 f a e = Ok r /\ shape r = [B; N; 3%nat] /\
    forall b n c, (b < B)%nat -> (n < N)%nat -> (c < 3)%nat ->
      get r [b; n; c] = f (get a [b; n; c]) (get e [b; n; bsel B c]).
Proof.
  intros Ha He HB. unfold map2. rewrite Ha, He.
  unfold broadcast_shapes; cbn. rewrite HB, !bdim_same. cbn.
  eexists; split; [reflexivity|]. split; [reflexivity|].
  intros b n c Hb Hn Hc. cbn. bcast_index. reflexivity.
Qed.

Lemma map2_costate_update_mismatch (f : num -> num -> num) (a e : tensor)
    (B N : nat) :
  shape a = [B; N; 3%nat] -> shape e = [B; N; B] ->
  B <> 1%nat -> B <> 3%nat ->
  map2 f a e = Err ShapeError.
Proof.
  intros Ha He H1 H3. unfold map2. rewrite Ha, He.
  unfold broadcast_shapes; cbn. rewrite (bdim_mismatch 3 B) by lia.
  now destruct (bdim B B), (bdim N N).
Qed.

Section SolverFacts.

Variable drift : tensor -> tensor -> result tensor.
Variable drift_grad : tensor -> tensor -> tensor -> option (list nat -> num).

(** A gradient that the engine returns has the shape of [curr_x]. *)
Lemma autograd_grad_sum_shape (is_clone : bool) (x t mask g : tensor) :
  autograd_grad_sum drift_grad is_clone x t mask = Ok g -> shape g = shape x.
Proof.
  unfold autograd_grad_sum. destruct is_clone; [|discriminate].
  destruct (drift_grad x t mask); [|discriminate]. now intros [= <-].
Qed.

Lemma adjoint_step_fails (t mask : tensor) (step : num)
    (st : loop_state) (t_curr : num) (B N : nat) :
  shape (a_t st) = [B; N; 3%nat] -> shape (curr_x st) = [B; N; 3%nat] ->
  ~ ((N = 1%nat \/ N = 3%nat) /\ (B = 1%nat \/ B = 3%nat)) ->
  exists e, adjoint_step drift drift_grad t mask step st t_curr = Err e.
Proof.
  intros Ha Hx Hno. unfold adjoint_step.
  destruct (drift (curr_x st) (expand_as t_curr t)) as [d|e]; cbn [bind];
    [|now exists e].
  destruct (tmul d (unsqueeze_last mask)) as [cd|e]; cbn [bind];
    [|now exists e].
  destruct (autograd_grad_sum drift_grad (curr_x_is_clone st) (curr_x st)
              (expand_as t_curr t) mask) as [g|e] eqn:Eg; cbn [bind];
    [|now exists e].
  apply autograd_grad_sum_shape in Eg. rewrite Hx in Eg.
  destruct (Nat.eq_dec N 1) as [HN|HN1];
    [|destruct (Nat.eq_dec N 3) as [HN|HN3]].
  3: { rewrite (einsum_residue_mismatch g (a_t st) B N); trivial.
       now exists ShapeError. }
  all: destruct (einsum_entry g (a_t st) B N Eg Ha)
         as (e & -> & He & _); [subst N; reflexivity|]; cbn [bind];
       unfold tsub;
       rewrite (map2_costate_update_mismatch sub (a_t st) (map1 (mul step) e)
                  B N);
       trivial; try (intros ->; apply Hno; split; auto);
       now exists ShapeError.
Qed.

(** C1 (failing inputs).  On a state of [B] examples of [N] residues, where
    [N] is not 1 or 3 or [B] is not 1 or 3, the solver returns no costate,
    whatever the drift is: the first pass through the loop does not get past
    the [einsum] and the subtraction that follows it. *)
Theorem solve_adjoint_state_fails (x_t t mask : tensor) (B N : nat) :
  shape x_t = [B; N; 3%nat] -> shape mask = [B; N] ->
  ~ ((N = 1%nat \/ N = 3%nat) /\ (B = 1%nat \/ B = 3%nat)) ->
  exists e, solve_adjoint_state drift drift_grad x_t t mask = Err e.
Proof.
  intros Hx Hm Hno. unfold solve_adjoint_state.
  destruct (initial_costate x_t mask B N Hx Hm) as (a0 & -> & Ha0 & _).
  cbn [bind]. rewrite loop_times. cbn [seq map adjoint_loop].
  destruct (adjoint_step_fails t mask dt (mkLoop a0 x_t true [a0])
              (Fin (1 + INR 0 * ((0 - 1) / INR (20 - 1)))) B N)
    as (e & ->); trivial.
  now exists e.
Qed.

(** A pass through the loop leaves a [curr_x] that was rebuilt under
    [torch.no_grad()]. *)
Lemma adjoint_step_rebuilds (t mask : tensor) (step : num)
    (st st' : loop_state) (t_curr : num) :
  adjoint_step drift drift_grad t mask step st t_curr = Ok st' ->
  curr_x_is_clone st' = false.
Proof.
  unfold adjoint_step, bind.
  repeat match goal with
         | |- context [match ?x with Ok _ => _ | Err _ => _ end] =>
             destruct x; try discriminate
         end.
  now intros [= <-].
Qed.

(** On such a [curr_x] the pass raises: at the latest when the engine is
    asked for the gradient. *)
Lemma adjoint_step_on_rebuilt (t mask : tensor) (step : num)
    (st : loop_state) (t_curr : num) :
  curr_x_is_clone st = false ->
  exists e, adjoint_step drift drift_grad t mask step st t_curr = Err e.
Proof.
  intros Hc. unfold adjoint_step. rewrite Hc.
  destruct (drift (curr_x st) (expand_as t_curr t)) as [d|e]; cbn [bind];
    [|now exists e].
  destruct (tmul d (unsqueeze_last mask)) as [cd|e]; cbn [bind];
    [|now exists e].
  now exists GradError.
Qed.

(** The loop does not get through two passes. *)
Lemma adjoint_loop_two_passes (t mask : tensor) (step : num)
    (t1 t2 : num) (ts : list num) (st : loop_state) :
  exists e,
    adjoint_loop drift drift_grad t mask step (t1 :: t2 :: ts) st = Err e.
Proof.
  cbn [adjoint_loop].
  destruct (adjoint_step drift drift_grad t mask step st t1) as [st1|e] eqn:E1;
    cbn [bind]; [|now exists e].
  destruct (adjoint_step_on_rebuilt t mask step st1 t2
              (adjoint_step_rebuilds t mask step st st1 t1 E1)) as (e & ->).
  now exists e.
Qed.

Lemma solve_adjoint_state_is_error (x_t t mask : tensor) :
  exists e, solve_adjoint_state drift drift_grad x_t t mask = Err e.
Proof.
  unfold solve_adjoint_state.
  destruct (tmul (map1 neg (ones_like x_t)) (unsqueeze_last mask)) as [a0|e];
    cbn [bind]; [|now exists e].
  rewrite loop_times.
  change (seq 0 19) with (0%nat :: 1%nat :: seq 2 17). cbn [map].
  destruct (adjoint_loop_two_passes t mask dt
              (Fin (1 + INR 0 * ((0 - 1) / INR (20 - 1))))
              (Fin (1 + INR 1 * ((0 - 1) / INR (20 - 1))))
              (map (fun k => Fin (1 + INR k * ((0 - 1) / INR (20 - 1))))
                   (seq 2 17))
              (mkLoop a0 x_t true [a0])) as (e & ->).
  now exists e.
Qed.

End SolverFacts.

Lemma solve_adjoint_state_fails_witness :
  exists e,
    solve_adjoint_state
      (trans_drift (full [2; 5; 3]%nat (Fin 1)) (full [2%nat] (Fin 1)))
      no_gradient
      (full [2; 5; 3]%nat (Fin 0)) (full [2; 1]%nat (Fin (1 / 2)))
      (full [2; 5]%nat (Fin 1))
    = Err e.
Proof.
  apply (solve_adjoint_state_fails
           (trans_drift (full [2; 5; 3]%nat (Fin 1)) (full [2%nat] (Fin 1)))
           no_gradient
           (full [2; 5; 3]%nat (Fin 0)) (full [2; 1]%nat (Fin (1 / 2)))
           (full [2; 5]%nat (Fin 1)) 2 5).
  - reflexivity.
  - reflexivity.
  - lia.
Defined.

Section SolverRuns.

Variable drift : tensor -> tensor -> result tensor.
Variable drift_grad : tensor -> tensor -> tensor -> option (list nat -> num).
Variables B N : nat.
Variables t mask : tensor.

Hypothesis mask_shape : shape mask = [B; N].

(** At a time of the shape of [t], the drift returns a tensor of the shape
    of the state. *)
Hypothesis drift_shape :
  forall x tc, shape x = [B; N; 3%nat] -> shape tc = shape t ->
    exists d, drift x tc = Ok d /\ shape d = [B; N; 3%nat].

(** The sizes that the [einsum] and the subtraction accept. *)
Hypothesis residues_ok : bdim N 3 = Some 3%nat.
Hypothesis examples_ok : bdim 3 B = Some 3%nat.

(** The first pass, when the engine differentiates. *)
Lemma adjoint_step_on_clone (step : num) (st : loop_state) (t_curr : num)
    (g : list nat -> num) :
  shape (a_t st) = [B; N; 3%nat] -> shape (curr_x st) = [B; N; 3%nat] ->
  curr_x_is_clone st = true ->
  drift_grad (curr_x st) (expand_as t_curr t) mask = Some g ->
  exists st',
    adjoint_step drift drift_grad t mask step st t_curr = Ok st' /\
    shape (a_t st') = [B; N; 3%nat] /\ shape (curr_x st') = [B; N; 3%nat] /\
    curr_x_is_clone st' = false /\
    forall b n c, (b < B)%nat -> (n < N)%nat -> (c < 3)%nat ->
      get (a_t st') [b; n; c]
      = mul (sub (get (a_t st) [b; n; c])
                 (mul step
                    (contraction (mkT (shape (curr_x st)) g) (a_t st)
                       N b n (bsel B c))))
            (get mask [b; n]).
Proof.
  intros Ha Hx Hc Hg. unfold adjoint_step.
  destruct (drift_shape (curr_x st) (expand_as t_curr t) Hx eq_refl)
    as (d & -> & Hd); cbn [bind].
  unfold tmul at 1.
  destruct (map2_unsqueeze1 mul d mask B N 3 Hd mask_shape)
    as (cd & -> & Hcd & _); cbn [bind].
  unfold autograd_grad_sum. rewrite Hc, Hg. cbn [bind].
  destruct (einsum_entry (mkT (shape (curr_x st)) g) (a_t st) B N Hx Ha
              residues_ok)
    as (e & -> & He & Heg); cbn [bind].
  unfold tsub.
  destruct (map2_costate_update sub (a_t st) (map1 (mul step) e) B N Ha He
              examples_ok) as (a1 & -> & Ha1 & Ha1g); cbn [bind].
  unfold tmul.
  destruct (map2_unsqueeze1 mul a1 mask B N 3 Ha1 mask_shape)
    as (a2 & -> & Ha2 & Ha2g); cbn [bind].
  unfold tadd.
  destruct (map2_same_shape add (curr_x st) (map1 (mul step) cd))
    as (x' & -> & Hx' & _);
    [cbn [map1 shape]; now rewrite Hx, Hcd|]; cbn [bind].
  eexists; split; [reflexivity|]. cbn [a_t curr_x curr_x_is_clone].
  split; [exact Ha2|]. split; [exact (eq_trans Hx' Hx)|].
  split; [reflexivity|].
  intros b n c Hb Hn Hc'.
  rewrite Ha2g, Ha1g by lia. cbn [map1 get]. now rewrite Heg by lia.
Qed.

(** A later pass evaluates the drift and raises when the engine is asked
    for the gradient. *)
Lemma adjoint_step_grad_error (step : num) (st : loop_state) (t_curr : num) :
  shape (curr_x st) = [B; N; 3%nat] -> curr_x_is_clone st = false ->
  adjoint_step drift drift_grad t mask step st t_curr = Err GradError.
Proof.
  intros Hx Hc. unfold adjoint_step.
  destruct (drift_shape (curr_x st) (expand_as t_curr t) Hx eq_refl)
    as (d & -> & Hd); cbn [bind].
  unfold tmul at 1.
  destruct (map2_unsqueeze1 mul d mask B N 3 Hd mask_shape)
    as (cd & -> & _ & _); cbn [bind].
  unfold autograd_grad_sum. now rewrite Hc.
Qed.

(** The first pass raises at once when the engine refuses the gradient. *)
Lemma adjoint_step_refused (step : num) (st : loop_state) (t_curr : num) :
  shape (curr_x st) = [B; N; 3%nat] ->
  drift_grad (curr_x st) (expand_as t_curr t) mask = None ->
  adjoint_step drift drift_grad t mask step st t_curr = Err GradError.
Proof.
  intros Hx Hg. unfold adjoint_step.
  destruct (drift_shape (curr_x st) (expand_as t_curr t) Hx eq_refl)
    as (d & -> & Hd); cbn [bind].
  unfold tmul at 1.
  destruct (map2_unsqueeze1 mul d mask B N 3 Hd mask_shape)
    as (cd & -> & _ & _); cbn [bind].
  unfold autograd_grad_sum. rewrite Hg. now destruct (curr_x_is_clone st).
Qed.

End SolverRuns.

Lemma bdim_residues (N : nat) :
  N = 1%nat \/ N = 3%nat -> bdim N 3 = Some 3%nat.
Proof. intros [->| ->]; reflexivity. Qed.

Lemma bdim_examples (B : nat) :
  B = 1%nat \/ B = 3%nat -> bdim 3 B = Some 3%nat.
Proof. intros [->| ->]; reflexivity. Qed.

Lemma zero_drift_shape (B N : nat) (t : tensor) :
  forall x tc, shape x = [B; N; 3%nat] -> shape tc = shape t ->
    exists d, zero_drift x tc = Ok d /\ shape d = [B; N; 3%nat].
Proof. intros x tc Hx _. eexists; split; [reflexivity|exact Hx]. Qed.

(* ----------------------------------------------------------------- *)
(** *** The masking invariant *)





(** On the adjoint term of one example of three residues whose last residue
    is masked out, the masked product is zero at that residue, whatever the
    finite value of the term is. *)
Lemma masked_product_of_finite_term :
  exists m,
    tmul (square (full [1; 1; 3; 3]%nat (Fin 7)))
         (unsqueeze_last mask_last_out) = Ok m /\
    get m [0; 0; 2; 1]%nat = Fin 0 /\
    get m [0; 0; 1; 1]%nat = Fin 49.
Proof.
  eexists. split; [reflexivity|].
  split; cbn; unfold bsel; cbn; f_equal; ring.
Qed.


(* ----------------------------------------------------------------- *)
(** *** The solver on the zero drift *)

(** C9 (failing inputs).  With the drift identically zero, which the engine
    differentiates in the first pass, the solver raises a shape error
    instead of returning the masked terminal value whenever the number of
    residues is not 1 or 3 or the number of examples is not 1 or 3: the
    [einsum], or the subtraction that follows it, is refused in the first
    pass through the loop. *)
Theorem zero_drift_shape_error (x_t t mask : tensor) (B N : nat) :
  shape x_t = [B; N; 3%nat] -> shape mask = [B; N] ->
  ~ ((N = 1%nat \/ N = 3%nat) /\ (B = 1%nat \/ B = 3%nat)) ->
  solve_adjoint_state zero_drift zero_drift_grad x_t t mask = Err ShapeError.
Proof.
  intros Hx Hm Hno. unfold solve_adjoint_state.
  destruct (initial_costate x_t mask B N Hx Hm) as (a0 & -> & Ha0 & _).
  cbn [bind]. rewrite loop_times.
  change (seq 0 19) with (0%nat :: seq 1 18). cbn [map adjoint_loop].
  unfold adjoint_step at 1. cbn [zero_drift bind curr_x a_t curr_x_is_clone].
  unfold tmul at 1.
  destruct (map2_unsqueeze1 mul (map1 (fun _ => Fin 0) x_t) mask B N 3 Hx Hm)
    as (cd & -> & _ & _); cbn [bind].
  cbn [autograd_grad_sum zero_drift_grad bind].
  destruct (Nat.eq_dec N 1) as [HN|HN1];
    [|destruct (Nat.eq_dec N 3) as [HN|HN3]].
  3: { rewrite (einsum_residue_mismatch _ a0 B N); trivial. }
  all: destruct (einsum_entry (mkT (shape x_t) (fun _ => Fin 0)) a0 B N Hx
                   Ha0)
         as (e & -> & He & _); [subst N; reflexivity|]; cbn [bind];
       unfold tsub;
       rewrite (map2_costate_update_mismatch sub a0 (map1 (mul dt) e) B N);
       trivial; intros ->; apply Hno; split; auto.
Qed.

Lemma zero_drift_shape_error_witness :
  solve_adjoint_state zero_drift zero_drift_grad
    (full [2; 5; 3]%nat (Fin 0)) (full [2; 1]%nat (Fin (1 / 2)))
    (full [2; 5]%nat (Fin 1))
  = Err ShapeError.
Proof.
  apply (zero_drift_shape_error
           (full [2; 5; 3]%nat (Fin 0)) (full [2; 1]%nat (Fin (1 / 2)))
           (full [2; 5]%nat (Fin 1)) 2 5).
  - reflexivity.
  - reflexivity.
  - lia.
Defined.

(* ================================================================= *)
(** ** Further properties of the loss blocks *)

(* ----------------------------------------------------------------- *)
(** *** The clamp *)

Lemma clamp_max_never_above (m : R) (a : num) :
  ltb (Fin m) (clamp_max m a) = false.
Proof.
  destruct a as [x| | |]; cbn; trivial.
  - unfold Rltb. destruct (Rlt_dec m x) as [H|H]; cbn.
    + apply Rltb_false. lra.
    + now apply Rltb_false.
  - apply Rltb_false. lra.
Qed.


(** X1.  No entry of the translation loss exceeds 5: whatever the drift, the
    noise coefficient, the costate and the mask are, an entry is NaN or at
    most 5. *)
Theorem trans_loss_never_above_5 (cfg : training_cfg)
    (vf sigma adjoint mask tl : tensor) (idx : list nat) :
  trans_loss_of cfg vf sigma adjoint mask = Ok tl ->
  ltb (Fin 5) (get tl idx) = false.
Proof.
  unfold trans_loss_of, bind.
  destruct (adjoint_term vf sigma adjoint) as [term|]; [|discriminate].
  destruct (masked_mean_square _ term mask) as [l|]; [|discriminate].
  intros [= <-]. cbn [map1 get]. apply clamp_max_never_above.
Qed.

Lemma trans_loss_never_above_5_witness :
  exists tl,
    trans_loss_of cfg_double
      (full [1; 1; 3]%nat (Fin 7)) (full [1; 1]%nat (Fin 1))
      (full [1; 1; 3]%nat (Fin 0)) (full [1; 1]%nat (Fin 1)) = Ok tl /\
    ltb (Fin 5) (get tl [0; 0]%nat) = false.
Proof.
  eexists. split; [reflexivity|].
  apply (trans_loss_never_above_5 cfg_double
           (full [1; 1; 3]%nat (Fin 7)) (full [1; 1]%nat (Fin 1))
           (full [1; 1; 3]%nat (Fin 0)) (full [1; 1]%nat (Fin 1))).
  reflexivity.
Defined.

Lemma sum_list_Fin_ext (A : Type) (f : A -> num) (g : A -> R) (l : list A) :
  (forall x, In x l -> f x = Fin (g x)) ->
  sum_list (map f l) = Fin (Rsum (map g l)).
Proof.
  intros H. rewrite (sum_list_ext A f (fun x => Fin (g x)) l H).
  now rewrite <- map_map, sum_list_Fin.
Qed.

Lemma finite_to_R (a : num) : is_finite a = true -> a = Fin (to_R a).
Proof. now destruct a. Qed.






(* ----------------------------------------------------------------- *)
(** *** The mask in the translation loss *)





(* ----------------------------------------------------------------- *)
(** *** The auxiliary loss *)

(** X4.  No entry of the auxiliary loss exceeds 5, whether the gate is open
    or closed. *)
Theorem auxiliary_loss_never_above_5 (cfg : training_cfg)
    (r3_t : tensor) (gt : result tensor) (pred mask reward a : tensor)
    (idx : list nat) :
  auxiliary_loss_of cfg r3_t gt pred mask reward = Ok a ->
  ltb (Fin 5) (get a idx) = false.
Proof.
  unfold auxiliary_loss_of, bind.
  destruct (aux_gate cfg r3_t) as [[|]|]; try discriminate.
  - destruct gt as [g|]; [|discriminate]. unfold aux_body, bind.
    destruct (bb_atom_loss_of g pred mask) as [l|]; [|discriminate].
    destruct (tmul _ reward) as [q|]; [|discriminate].
    intros [= <-]. cbn [map1 get]. apply clamp_max_never_above.
  - intros [= <-]. cbn. apply Rltb_false. lra.
Qed.

Lemma auxiliary_loss_never_above_5_witness :
  exists a,
    auxiliary_loss_of cfg_ones times_high_low
      (Ok (full [2; 1; 3; 3]%nat (Fin 4)))
      (full [2; 1; 3; 3]%nat (Fin 0)) (full [2; 1]%nat (Fin 1))
      (full [2%nat] (Fin 1)) = Ok a /\
    ltb (Fin 5) (get a [1%nat]) = false.
Proof.
  pose proof (aux_gate_value cfg_ones times_high_low 2 (9 / 10)
                eq_refl ltac:(lia) eq_refl) as G.
  destruct (aux_body_entry cfg_ones (full [2; 1; 3; 3]%nat (Fin 4))
              (full [2; 1; 3; 3]%nat (Fin 0)) (full [2; 1]%nat (Fin 1))
              (full [2%nat] (Fin 1)) 2 1 eq_refl eq_refl eq_refl eq_refl)
    as (a & Ha & _).
  exists a.
  assert (E : auxiliary_loss_of cfg_ones times_high_low
                (Ok (full [2; 1; 3; 3]%nat (Fin 4)))
                (full [2; 1; 3; 3]%nat (Fin 0)) (full [2; 1]%nat (Fin 1))
                (full [2%nat] (Fin 1)) = Ok a).
  { unfold auxiliary_loss_of. rewrite G. cbn [aux_loss_weight cfg_ones].
    rewrite !Rltb_true by lra. cbn [andb bind]. exact Ha. }
  split; [exact E|].
  exact (auxiliary_loss_never_above_5 cfg_ones times_high_low
           (Ok (full [2; 1; 3; 3]%nat (Fin 4)))
           (full [2; 1; 3; 3]%nat (Fin 0)) (full [2; 1]%nat (Fin 1))
           (full [2%nat] (Fin 1)) a [1%nat] E).
Defined.

(* ----------------------------------------------------------------- *)
(** *** The empty-batch check on 0/1 masks *)

Lemma Rsum_binary_lt_1 (f : nat -> R) (l : list nat) :
  (forall k, In k l -> f k = 0 \/ f k = 1) ->
  (Rsum (map f l) < 1 <-> forall k, In k l -> f k = 0).
Proof.
  intros Hb. split.
  - induction l as [|x l IH]; intros Hlt k Hk; [easy|].
    cbn [map] in Hlt. rewrite Rsum_cons in Hlt.
    assert (Hl : 0 <= Rsum (map f l)).
    { apply Rsum_nonneg, Forall_forall. intros y Hy.
      apply in_map_iff in Hy as (z & <- & Hz).
      destruct (Hb z) as [-> | ->]; [now right|lra|lra]. }
    destruct (Hb x) as [Hx|Hx]; [now left| |lra].
    destruct Hk as [<-|Hk]; [exact Hx|].
    apply IH; trivial; [intros z Hz; apply Hb; now right|lra].
  - intros H0. rewrite Rsum_all_zero; [lra|exact H0].
Qed.

Lemma binary_product (x y : num) :
  x = Fin 0 \/ x = Fin 1 -> y = Fin 0 \/ y = Fin 1 ->
  exists r, mul x y = Fin r /\ (r = 0 \/ r = 1) /\
            (r = 1 <-> x = Fin 1 /\ y = Fin 1).
Proof.
  intros [-> | ->] [-> | ->]; cbn; eexists; (split; [reflexivity|]);
    (split; [first [left; lra | right; lra]|]);
    (split; [intros H|intros [H1 H2]]);
    try lra; try (split; reflexivity);
    try (apply Fin_inj in H1; lra); try (apply Fin_inj in H2; lra).
Qed.

(** X5.  For 0/1 masks the check rejects the batch exactly when some example
    has no residue that is both valid and diffused; in particular a batch of
    no example passes it. *)
Theorem empty_batch_iff_no_valid_residue (b : noisy_batch) (B N : nat) :
  shape (res_mask b) = [B; N] -> shape (diffuse_mask b) = [B; N] ->
  binary_mask (res_mask b) B N -> binary_mask (diffuse_mask b) B N ->
  exists m,
    loss_mask_of b = Ok m /\
    (empty_batch m = true <->
     exists e, (e < B)%nat /\
       forall n, (n < N)%nat ->
         ~ (get (res_mask b) [e; n] = Fin 1 /\
            get (diffuse_mask b) [e; n] = Fin 1)).
Proof.
  intros Hr Hd Hbr Hbd.
  destruct (loss_mask_of_entry b B N Hr Hd) as (m & Hm & Hs & Hg).
  exists m. split; [exact Hm|].
  destruct (sum_last_matrix m B N Hs) as (Hss & Hsg).
  assert (Hent : forall e n, (e < B)%nat -> (n < N)%nat ->
            get m [e; n] = Fin (to_R (get m [e; n])) /\
            (to_R (get m [e; n]) = 0 \/ to_R (get m [e; n]) = 1) /\
            (to_R (get m [e; n]) = 1 <->
             get (res_mask b) [e; n] = Fin 1 /\
             get (diffuse_mask b) [e; n] = Fin 1)).
  { intros e n He Hn. rewrite (Hg e n He Hn).
    destruct (binary_product _ _ (Hbr e n He Hn) (Hbd e n He Hn))
      as (r & -> & H01 & Hiff). cbn [to_R]. now repeat split; try apply Hiff. }
  assert (Hrow : forall e, (e < B)%nat ->
            ltb (get (sum_last m) [e]) one = true <->
            forall n, (n < N)%nat -> to_R (get m [e; n]) = 0).
  { intros e He. rewrite Hsg.
    rewrite (sum_list_Fin_ext nat _ (fun n => to_R (get m [e; n])));
      [|intros n Hn; apply in_seq in Hn; apply Hent; lia].
    cbn [ltb one]. unfold Rltb.
    destruct (Rlt_dec _ 1) as [Hlt|Hnl].
    - split; [intros _ n Hn|trivial].
      apply (proj1 (Rsum_binary_lt_1 (fun n => to_R (get m [e; n])) (seq 0 N)
               ltac:(intros k Hk; apply in_seq in Hk; apply Hent; lia)) Hlt).
      apply in_seq; lia.
    - split; [discriminate|]. intros H0. elim Hnl.
      apply (Rsum_binary_lt_1 (fun n => to_R (get m [e; n])) (seq 0 N)).
      + intros k Hk; apply in_seq in Hk; apply Hent; lia.
      + intros k Hk; apply in_seq in Hk; apply H0; lia. }
  unfold empty_batch. split.
  - intros Hany. unfold any, entries in Hany.
    apply existsb_exists in Hany as (x & Hin & Hx).
    apply in_map_iff in Hin as (idx & <- & Hidx).
    apply in_indices in Hidx. rewrite Hss in Hidx.
    inversion Hidx as [|e d idx' s' He Hnil]; subst. inversion Hnil; subst.
    exists e. split; [exact He|]. intros n Hn Hboth.
    apply (Hent e n He Hn) in Hboth.
    pose proof (proj1 (Hrow e He) Hx n Hn). lra.
  - intros (e & He & Hnone).
    apply (any_true _ _ [e]); [rewrite Hss; in_range_tac|].
    apply (Hrow e He). intros n Hn.
    destruct (Hent e n He Hn) as (_ & [H0|H1] & Hiff); [exact H0|].
    elim (Hnone n Hn). now apply Hiff.
Qed.

Lemma empty_batch_iff_no_valid_residue_witness :
  exists m,
    loss_mask_of batch_masked_out = Ok m /\
    (empty_batch m = true <->
     exists e, (e < 1)%nat /\
       forall n, (n < 1)%nat ->
         ~ (get (res_mask batch_masked_out) [e; n] = Fin 1 /\
            get (diffuse_mask batch_masked_out) [e; n] = Fin 1)).
Proof.
  apply (empty_batch_iff_no_valid_residue batch_masked_out 1 1).
  - reflexivity.
  - reflexivity.
  - intros e n _ _. right. reflexivity.
  - intros e n _ _. left. reflexivity.
Defined.

(* ----------------------------------------------------------------- *)
(** *** [model_step] on the documented shapes *)

(** X6.  On a batch that passes the empty-batch check, with a network and an
    atom reconstruction that return tensors of the documented shapes for [B]
    examples of [N] residues, [model_step] raises a shape error when it adds
    the validity term to the diversity term, unless [B = N], [B = 1] or
    [N = 1]; no loss is computed. *)
Theorem model_step_fails_at_reward
    (cfg : training_cfg)
    (model : noisy_batch -> result (tensor * tensor))
    (to_atom37 calc_rot_vf : tensor -> tensor -> result tensor)
    (trans_drift_grad rot_drift_grad :
       tensor -> tensor -> tensor -> tensor -> tensor ->
       option (list nat -> num))
    (b : noisy_batch) (m pred_trans pred_rotmats atoms : tensor)
    (B N A : nat) :
  loss_mask_of b = Ok m -> empty_batch m = false ->
  model b = Ok (pred_trans, pred_rotmats) ->
  to_atom37 pred_trans pred_rotmats = Ok atoms ->
  shape atoms = [B; N; A; 3%nat] -> (3 <= A)%nat ->
  B <> N -> B <> 1%nat -> N <> 1%nat ->
  model_step cfg model to_atom37 calc_rot_vf trans_drift_grad rot_drift_grad
    b
  = Err ShapeError.
Proof.
  intros Hm He Hmod Hat Hs HA H1 H2 H3. unfold model_step.
  rewrite Hm; cbn [bind]. rewrite He, Hmod; cbn [bind fst snd].
  rewrite Hat; cbn [bind].
  unfold first3_axis2, slice_axis2. rewrite Hs; cbn [bind].
  rewrite Nat.min_l by exact HA.
  match goal with |- context [validity_reward ?p] => set (bb := p) end.
  assert (Hbb : shape bb = [B; N; 3; 3]%nat) by reflexivity.
  destruct (validity_reward_shape bb B N Hbb) as (v & -> & Hv); cbn [bind].
  destruct (Nat.eq_dec B 0) as [->|HB].
  - now rewrite (diversity_reward_empty bb N Hbb).
  - destruct (diversity_reward_shape bb B N Hbb) as (d & -> & Hd); [lia|].
    cbn [bind]. now rewrite (combine_reward_mismatch d v B N).
Qed.

Lemma model_step_fails_at_reward_witness :
  model_step cfg_ones model_2x5 to_atom37_2x5 collaborator_refuses
    grad_refused grad_refused batch_2x5
  = Err ShapeError.
Proof.
  apply (model_step_fails_at_reward cfg_ones model_2x5 to_atom37_2x5
           collaborator_refuses grad_refused grad_refused batch_2x5
           (mkT [2; 5]%nat (fun _ => mul (Fin 1) (Fin 1)))
           (full [2; 5; 3]%nat (Fin 0)) (full [2; 5; 3; 3]%nat (Fin 0))
           (full [2; 5; 37; 3]%nat (Fin 0)) 2 5 37).
  - reflexivity.
  - unfold empty_batch, any, entries. cbn.
    rewrite !Rltb_false by lra. reflexivity.
  - reflexivity.
  - reflexivity.
  - reflexivity.
  - lia.
  - lia.
  - lia.
  - lia.
Defined.

(** X15.  [model_step] returns no loss record: on every batch and for all
    collaborators it ends in an error.  A batch that gets as far as the
    translation costate stops there, since the solver returns nothing. *)
Theorem model_step_never_returns
    (cfg : training_cfg)
    (model : noisy_batch -> result (tensor * tensor))
    (to_atom37 calc_rot_vf : tensor -> tensor -> result tensor)
    (trans_drift_grad rot_drift_grad :
       tensor -> tensor -> tensor -> tensor -> tensor ->
       option (list nat -> num))
    (b : noisy_batch) :
  exists e,
    model_step cfg model to_atom37 calc_rot_vf trans_drift_grad rot_drift_grad
      b
    = Err e.
Proof.
  unfold model_step.
  destruct (loss_mask_of b) as [m|e]; cbn [bind]; [|now exists e].
  destruct (empty_batch m); [now exists EmptyBatch|].
  destruct (model b) as [[pt pr]|e]; cbn [bind fst snd]; [|now exists e].
  destruct (to_atom37 pt pr) as [at37|e]; cbn [bind]; [|now exists e].
  destruct (first3_axis2 at37) as [bb|e]; cbn [bind]; [|now exists e].
  destruct (validity_reward bb) as [v|e]; cbn [bind]; [|now exists e].
  destruct (diversity_reward bb) as [d|e]; cbn [bind]; [|now exists e].
  destruct (combine_reward d v) as [r|e]; cbn [bind]; [|now exists e].
  destruct (sigma_of (r3_t b)) as [sg|e]; cbn [bind]; [|now exists e].
  destruct (solve_adjoint_state_is_error (trans_drift pt r)
              (trans_drift_grad pt r) (trans_t b) (r3_t b) m) as (e & ->).
  now exists e.
Qed.

(* ----------------------------------------------------------------- *)
(** *** The validity term *)

Lemma bond_lengths_entry (p : tensor) (B N : nat) :
  shape p = [B; N; 3; 3]%nat ->
  exists bl, bond_lengths p = Ok bl /\ shape bl = [B; N; 2%nat] /\
    forall b n k, (b < B)%nat -> (n < N)%nat -> (k < 2)%nat ->
      get bl [b; n; k]
      = sqrt (sum_list
                (map (fun c =>
                        mul (sub (get p [b; n; S k; c]) (get p [b; n; k; c]))
                            (sub (get p [b; n; S k; c]) (get p [b; n; k; c])))
                     (seq 0 3))).
Proof.
  intros Hs. unfold bond_lengths, tail_axis2, init_axis2, slice_axis2.
  rewrite Hs; cbn [bind]. unfold tsub.
  match goal with |- context [map2 sub ?a ?b] =>
    destruct (map2_same_shape sub a b eq_refl) as (d & -> & Hd & Hg)
  end.
  cbn [bind]. cbn [shape] in Hd, Hg.
  eexists. split; [reflexivity|].
  unfold norm_last, sum_last. cbn [square map1 shape]. rewrite Hd.
  cbn [Nat.sub rev app]. split; [reflexivity|].
  intros b n k Hb Hn Hk. cbn [map1 get]. f_equal.
  apply sum_list_ext. intros c Hc. apply in_seq in Hc.
  cbn [square map1 get app]. rewrite Hg by (cbn; in_range_tac). reflexivity.
Qed.

Lemma bond_length_finite (p : tensor) (b n k : nat) :
  all_finite p ->
  sqrt (sum_list
          (map (fun c =>
                  mul (sub (get p [b; n; S k; c]) (get p [b; n; k; c]))
                      (sub (get p [b; n; S k; c]) (get p [b; n; k; c])))
               (seq 0 3)))
  = Fin (bond_R p b n k).
Proof.
  intros Hf. unfold bond_R.
  rewrite (sum_list_Fin_ext nat _
             (fun c => (to_R (get p [b; n; S k; c]) - to_R (get p [b; n; k; c]))
                       * (to_R (get p [b; n; S k; c])
                          - to_R (get p [b; n; k; c])))).
  - cbn [sqrt]. rewrite Rltb_false; [reflexivity|].
    apply Rle_not_lt, Rsum_nonneg, Forall_forall. intros x Hx.
    apply in_map_iff in Hx as (c & <- & _). apply Rle_0_sqr.
  - intros c _.
    rewrite (finite_to_R _ (Hf [b; n; S k; c])),
      (finite_to_R _ (Hf [b; n; k; c])). reflexivity.
Qed.

(** X7.  For finite coordinates the validity term of a residue is the
    fraction of its two consecutive backbone-atom distances that lie strictly
    between 1 and 2: one value per residue, equal to 0, 1/2 or 1. *)
Theorem validity_reward_is_bond_fraction (p : tensor) (B N b n : nat) :
  shape p = [B; N; 3; 3]%nat -> all_finite p ->
  (b < B)%nat -> (n < N)%nat ->
  exists v,
    validity_reward p = Ok v /\ shape v = [B; N] /\
    get v [b; n]
    = Fin ((in_bond_range (bond_R p b n 0) + in_bond_range (bond_R p b n 1)) / 2)
    /\
    (get v [b; n] = Fin 0 \/ get v [b; n] = Fin (1 / 2) \/ get v [b; n] = Fin 1).
Proof.
  intros Hs Hf Hb Hn.
  destruct (bond_lengths_entry p B N Hs) as (bl & Hbl & Hbs & Hg).
  unfold validity_reward. rewrite Hbl; cbn [bind].
  eexists. split; [reflexivity|].
  unfold mean_last, last_dim, sum_last, valid_bonds. cbn [map1 shape].
  rewrite Hbs. cbn [rev app last]. split; [reflexivity|].
  match goal with |- ?X = ?Y /\ _ => assert (E : X = Y) end.
  { cbn [map1 get app seq map].
    rewrite !Hg by lia. rewrite !bond_length_finite by exact Hf.
    unfold in_bond_range, gtb. cbn [ltb].
    destruct (Rltb 1 (bond_R p b n 0) && Rltb (bond_R p b n 0) 2),
      (Rltb 1 (bond_R p b n 1) && Rltb (bond_R p b n 1) 2);
      cbn; rewrite Reqb_false by lra; f_equal; lra. }
  split; [exact E|]. rewrite E. unfold in_bond_range.
  destruct (Rltb 1 (bond_R p b n 0) && Rltb (bond_R p b n 0) 2),
    (Rltb 1 (bond_R p b n 1) && Rltb (bond_R p b n 1) 2);
    [right; right|right; left|right; left|left]; f_equal; lra.
Qed.

Lemma validity_reward_is_bond_fraction_witness :
  exists v,
    validity_reward coincident_atoms = Ok v /\ shape v = [1; 1]%nat /\
    get v [0; 0]%nat
    = Fin ((in_bond_range (bond_R coincident_atoms 0 0 0)
            + in_bond_range (bond_R coincident_atoms 0 0 1)) / 2)
    /\
    (get v [0; 0]%nat = Fin 0 \/ get v [0; 0]%nat = Fin (1 / 2)
     \/ get v [0; 0]%nat = Fin 1).
Proof.
  apply (validity_reward_is_bond_fraction coincident_atoms 1 1 0 0).
  - reflexivity.
  - intros idx. reflexivity.
  - lia.
  - lia.
Defined.

(* ----------------------------------------------------------------- *)
(** *** The diversity term: layout of the flattened atoms *)

Lemma div_mod_unique (a b q r : nat) :
  (r < b)%nat -> a = (b * q + r)%nat -> (a / b = q /\ a mod b = r)%nat.
Proof.
  intros Hr Ha. split.
  - symmetry. now apply (Nat.div_unique a b q r).
  - symmetry. now apply (Nat.mod_unique a b q r).
Qed.

(** [reshape(batch_size, -1, 3)] numbers the atoms of an example residue by
    residue: flattened atom [i] is atom [i mod 3] of residue [i / 3]. *)
Lemma reshape_layout (B N e i c : nat) :
  (i < N * 3)%nat -> (c < 3)%nat ->
  unflat [B; N; 3; 3]%nat (flat_index [B; (N * 3)%nat; 3%nat] [e; i; c])
  = [e; (i / 3)%nat; (i mod 3)%nat; c].
Proof.
  intros Hi Hc. cbn [flat_index unflat numel fold_right].
  pose proof (Nat.div_mod_eq i 3) as Hdm.
  pose proof (Nat.mod_upper_bound i 3 ltac:(lia)) as Hm.
  set (q := (i / 3)%nat) in *. set (r := (i mod 3)%nat) in *.
  assert (Hq : (q < N)%nat) by lia.
  destruct (div_mod_unique (e * (N * 3 * (3 * 1)) + (i * (3 * 1) + (c * 1 + 0)))
              (N * (3 * (3 * 1))) e (i * 3 + c)) as [-> ->]; [lia|lia|].
  destruct (div_mod_unique (i * 3 + c) (3 * (3 * 1)) q (r * 3 + c))
    as [-> ->]; [lia|lia|].
  destruct (div_mod_unique (r * 3 + c) (3 * 1) r c) as [-> ->]; [lia|lia|].
  now rewrite Nat.div_1_r.
Qed.

Lemma atom_layout (p : tensor) (B N e i c : nat) :
  (i < N * 3)%nat -> (c < 3)%nat ->
  atom p B N e i c = get p [e; (i / 3)%nat; (i mod 3)%nat; c].
Proof. intros Hi Hc. unfold atom. now rewrite reshape_layout. Qed.

Lemma pairwise_mean_ext (x y : nat -> nat -> num) (P : nat) :
  (forall i c, (i < P)%nat -> (c < 3)%nat -> x i c = y i c) ->
  pairwise_mean x P = pairwise_mean y P.
Proof.
  intros H. unfold pairwise_mean. f_equal.
  apply sum_list_ext; intros i Hi; apply in_seq in Hi.
  apply sum_list_ext; intros j Hj; apply in_seq in Hj.
  f_equal. apply sum_list_ext; intros c Hc; apply in_seq in Hc.
  now rewrite !H by lia.
Qed.

(** X8.  The diversity term of an example is the mean, over all ordered
    pairs of its [3 N] backbone atoms, of the Euclidean distance between
    them, atom [i] being atom [i mod 3] of residue [i / 3]; a pair of an atom
    with itself counts, with distance 0. *)
Theorem diversity_reward_is_mean_pairwise_distance (p : tensor) (B N e : nat) :
  shape p = [B; N; 3; 3]%nat -> (e < B)%nat ->
  exists d,
    diversity_reward p = Ok d /\ shape d = [B] /\
    get d [e]
    = pairwise_mean (fun i c => get p [e; (i / 3)%nat; (i mod 3)%nat; c])
                    (N * 3).
Proof.
  intros Hs He.
  destruct (diversity_reward_entry p B N Hs) as (d & Hd & Hsd & Hg); [lia|].
  exists d. split; [exact Hd|]. split; [exact Hsd|].
  rewrite Hg. apply pairwise_mean_ext. intros i c Hi Hc.
  now apply atom_layout.
Qed.

Lemma diversity_reward_is_mean_pairwise_distance_witness :
  exists d,
    diversity_reward coincident_atoms = Ok d /\ shape d = [1%nat] /\
    get d [0%nat]
    = pairwise_mean
        (fun i c => get coincident_atoms [0%nat; (i / 3)%nat; (i mod 3)%nat; c])
        (1 * 3).
Proof.
  apply (diversity_reward_is_mean_pairwise_distance coincident_atoms 1 1 0).
  - reflexivity.
  - lia.
Defined.

Lemma distance_R_ext (r r' : nat -> nat -> R) (i j : nat) :
  (forall c, (c < 3)%nat -> r' i c - r' j c = r i c - r j c) ->
  distance_R r' i j = distance_R r i j.
Proof.
  intros H. unfold distance_R. do 2 f_equal.
  apply map_ext_in. intros c Hc. apply in_seq in Hc. rewrite H by lia.
  reflexivity.
Qed.

Lemma pairwise_mean_R_ext (r r' : nat -> nat -> R) (P : nat) :
  (forall i j c, (i < P)%nat -> (j < P)%nat -> (c < 3)%nat ->
     r' i c - r' j c = r i c - r j c) ->
  pairwise_mean_R r' P = pairwise_mean_R r P.
Proof.
  intros H. unfold pairwise_mean_R. do 2 f_equal.
  apply map_ext_in. intros i Hi. apply in_seq in Hi. f_equal.
  apply map_ext_in. intros j Hj. apply in_seq in Hj.
  apply distance_R_ext. intros c Hc. apply H; lia.
Qed.

(** The diversity term of a finite structure as a real number. *)
Lemma diversity_reward_finite (p : tensor) (B N e : nat) :
  shape p = [B; N; 3; 3]%nat -> all_finite p ->
  (0 < N)%nat -> (e < B)%nat ->
  exists d,
    diversity_reward p = Ok d /\
    get d [e]
    = Fin (pairwise_mean_R
             (fun i c => to_R (get p [e; (i / 3)%nat; (i mod 3)%nat; c]))
             (N * 3)).
Proof.
  intros Hs Hf HN He.
  destruct (diversity_reward_entry p B N Hs) as (d & Hd & _ & Hg); [lia|].
  exists d. split; [exact Hd|]. rewrite Hg.
  rewrite (pairwise_mean_ext _
             (fun i c => Fin (to_R (get p [e; (i / 3)%nat; (i mod 3)%nat; c])))).
  - apply pairwise_mean_finite; [reflexivity|lia].
  - intros i c Hi Hc. rewrite atom_layout by trivial.
    apply finite_to_R, Hf.
Qed.

Lemma all_finite_translate (s : nat -> R) (p : tensor) :
  all_finite p -> all_finite (translate s p).
Proof.
  intros Hf idx. cbn. specialize (Hf idx). now destruct (get p idx).
Qed.

(** X9.  The diversity term does not change when a finite structure is
    moved as a whole: adding one vector to the coordinates of every atom
    leaves it as it is. *)
Theorem diversity_reward_translation_invariant
    (s : nat -> R) (p : tensor) (B N e : nat) :
  shape p = [B; N; 3; 3]%nat -> all_finite p ->
  (0 < N)%nat -> (e < B)%nat ->
  exists d d',
    diversity_reward p = Ok d /\
    diversity_reward (translate s p) = Ok d' /\
    get d' [e] = get d [e].
Proof.
  intros Hs Hf HN He.
  destruct (diversity_reward_finite p B N e Hs Hf HN He) as (d & Hd & Hg).
  destruct (diversity_reward_finite (translate s p) B N e Hs
              (all_finite_translate s p Hf) HN He) as (d' & Hd' & Hg').
  exists d, d'. split; [exact Hd|]. split; [exact Hd'|].
  rewrite Hg, Hg'. f_equal. apply pairwise_mean_R_ext.
  intros i j c Hi Hj Hc. cbn [translate get last].
  rewrite (finite_to_R _ (Hf [e; (i / 3)%nat; (i mod 3)%nat; c])),
    (finite_to_R _ (Hf [e; (j / 3)%nat; (j mod 3)%nat; c])).
  cbn. ring.
Qed.

Lemma diversity_reward_translation_invariant_witness :
  exists d d',
    diversity_reward coincident_atoms = Ok d /\
    diversity_reward (translate (fun c => INR c) coincident_atoms) = Ok d' /\
    get d' [0%nat] = get d [0%nat].
Proof.
  apply (diversity_reward_translation_invariant
           (fun c => INR c) coincident_atoms 1 1 0).
  - reflexivity.
  - intros idx. reflexivity.
  - lia.
  - lia.
Defined.

Lemma Rsum_zero_nonneg (l : list R) :
  Forall (fun x => 0 <= x) l -> Rsum l = 0 -> forall x, In x l -> x = 0.
Proof.
  induction 1 as [|y l Hy Hl IH]; intros Hsum x Hx; [easy|].
  rewrite Rsum_cons in Hsum.
  pose proof (Rsum_nonneg l Hl) as Hn.
  destruct Hx as [<-|Hx]; [lra|]. apply IH; [lra|exact Hx].
Qed.

Lemma distance_R_zero (r : nat -> nat -> R) (i j : nat) :
  distance_R r i j = 0 -> forall c, (c < 3)%nat -> r i c = r j c.
Proof.
  unfold distance_R. intros H c Hc.
  apply sqrt_eq_0 in H; [|apply sum_squares_nonneg].
  assert (Hz : (r i c - r j c) * (r i c - r j c) = 0).
  { apply (Rsum_zero_nonneg
             (map (fun c => (r i c - r j c) * (r i c - r j c)) (seq 0 3))).
    - apply Forall_forall. intros x Hx.
      apply in_map_iff in Hx as (k & <- & _). apply Rle_0_sqr.
    - exact H.
    - apply in_map_iff. exists c. split; [reflexivity|apply in_seq; lia]. }
  apply Rmult_integral in Hz. lra.
Qed.

Lemma pairwise_mean_R_zero (r : nat -> nat -> R) (P : nat) :
  (0 < P)%nat ->
  (pairwise_mean_R r P = 0 <->
   forall i j c, (i < P)%nat -> (j < P)%nat -> (c < 3)%nat -> r i c = r j c).
Proof.
  intros HP. split.
  - unfold pairwise_mean_R. intros H i j c Hi Hj Hc.
    assert (HINR : 0 < INR (P * P)) by (apply lt_0_INR; nia).
    assert (Hs : Rsum (map (fun i => Rsum (map (fun j => distance_R r i j)
                                               (seq 0 P))) (seq 0 P)) = 0).
    { unfold Rdiv in H. apply Rmult_integral in H as [H|H]; [exact H|].
      pose proof (Rinv_0_lt_compat _ HINR). lra. }
    assert (Hrow : Rsum (map (fun j => distance_R r i j) (seq 0 P)) = 0).
    { apply (Rsum_zero_nonneg _ ltac:(
        apply Forall_forall; intros x Hx;
        apply in_map_iff in Hx as (k & <- & _);
        apply Rsum_nonneg, Forall_forall; intros y Hy;
        apply in_map_iff in Hy as (k' & <- & _); apply distance_R_nonneg) Hs).
      apply in_map_iff. exists i. split; [reflexivity|apply in_seq; lia]. }
    apply distance_R_zero; [|exact Hc].
    apply (Rsum_zero_nonneg _ ltac:(
        apply Forall_forall; intros y Hy;
        apply in_map_iff in Hy as (k' & <- & _); apply distance_R_nonneg) Hrow).
    apply in_map_iff. exists j. split; [reflexivity|apply in_seq; lia].
  - intros H. unfold pairwise_mean_R.
    rewrite Rsum_all_zero; [unfold Rdiv; ring|].
    intros i Hi. apply in_seq in Hi. apply Rsum_all_zero.
    intros j Hj. apply in_seq in Hj. unfold distance_R.
    rewrite Rsum_all_zero; [apply sqrt_0|].
    intros c Hc. apply in_seq in Hc. rewrite (H i j c) by lia. ring.
Qed.

(** X10.  The diversity term of a finite structure is a non-negative number,
    and it is 0 exactly when all backbone atoms of the example sit at one
    point. *)
Theorem diversity_zero_iff_atoms_coincide (p : tensor) (B N e : nat) :
  shape p = [B; N; 3; 3]%nat -> all_finite p ->
  (0 < N)%nat -> (e < B)%nat ->
  exists d v,
    diversity_reward p = Ok d /\ get d [e] = Fin v /\ 0 <= v /\
    (v = 0 <->
     forall n k n' k' c,
       (n < N)%nat -> (k < 3)%nat -> (n' < N)%nat -> (k' < 3)%nat ->
       (c < 3)%nat ->
       get p [e; n; k; c] = get p [e; n'; k'; c]).
Proof.
  intros Hs Hf HN He.
  destruct (diversity_reward_finite p B N e Hs Hf HN He) as (d & Hd & Hg).
  exists d. eexists. split; [exact Hd|]. split; [exact Hg|].
  split; [apply pairwise_mean_R_nonneg|].
  rewrite pairwise_mean_R_zero by lia. split.
  - intros H n k n' k' c Hn Hk Hn' Hk' Hc.
    specialize (H (n * 3 + k)%nat (n' * 3 + k')%nat c
                  ltac:(lia) ltac:(lia) Hc).
    cbn beta in H.
    destruct (div_mod_unique (n * 3 + k) 3 n k) as [E1 E2]; [lia|lia|].
    destruct (div_mod_unique (n' * 3 + k') 3 n' k') as [E3 E4]; [lia|lia|].
    rewrite E1, E2, E3, E4 in H.
    rewrite (finite_to_R _ (Hf [e; n; k; c])),
      (finite_to_R _ (Hf [e; n'; k'; c])). now f_equal.
  - intros H i j c Hi Hj Hc. f_equal.
    pose proof (Nat.div_mod_eq i 3). pose proof (Nat.div_mod_eq j 3).
    pose proof (Nat.mod_upper_bound i 3 ltac:(lia)).
    pose proof (Nat.mod_upper_bound j 3 ltac:(lia)).
    apply H; lia.
Qed.

Lemma diversity_zero_iff_atoms_coincide_witness :
  exists d v,
    diversity_reward coincident_atoms = Ok d /\ get d [0%nat] = Fin v /\
    0 <= v /\
    (v = 0 <->
     forall n k n' k' c,
       (n < 1)%nat -> (k < 3)%nat -> (n' < 1)%nat -> (k' < 3)%nat ->
       (c < 3)%nat ->
       get coincident_atoms [0%nat; n; k; c]
       = get coincident_atoms [0%nat; n'; k'; c]).
Proof.
  apply (diversity_zero_iff_atoms_coincide coincident_atoms 1 1 0).
  - reflexivity.
  - intros idx. reflexivity.
  - lia.
  - lia.
Defined.

(* ----------------------------------------------------------------- *)
(** *** The diversity term under a uniform scaling *)

Lemma all_finite_scale (k : R) (p : tensor) :
  all_finite p -> all_finite (scale k p).
Proof.
  intros H idx. unfold scale; cbn [map1 get].
  specialize (H idx). now destruct (get p idx).
Qed.

Lemma to_R_scale (k : R) (p : tensor) (idx : list nat) :
  all_finite p -> to_R (get (scale k p) idx) = k * to_R (get p idx).
Proof.
  intros H. unfold scale; cbn [map1 get].
  specialize (H idx). now destruct (get p idx).
Qed.

(** All atoms of an example coincide, in the numbering of the flattened
    atoms and in the numbering by residue and atom. *)
Lemma atoms_coincide_layout (p : tensor) (N e : nat) :
  all_finite p ->
  (forall i j c, (i < N * 3)%nat -> (j < N * 3)%nat -> (c < 3)%nat ->
     to_R (get p [e; (i / 3)%nat; (i mod 3)%nat; c])
     = to_R (get p [e; (j / 3)%nat; (j mod 3)%nat; c]))
  <->
  (forall n k n' k' c,
     (n < N)%nat -> (k < 3)%nat -> (n' < N)%nat -> (k' < 3)%nat ->
     (c < 3)%nat ->
     get p [e; n; k; c] = get p [e; n'; k'; c]).
Proof.
  intros Hf. split.
  - intros H n k n' k' c Hn Hk Hn' Hk' Hc.
    specialize (H (n * 3 + k)%nat (n' * 3 + k')%nat c
                  ltac:(lia) ltac:(lia) Hc).
    destruct (div_mod_unique (n * 3 + k) 3 n k) as [E1 E2]; [lia|lia|].
    destruct (div_mod_unique (n' * 3 + k') 3 n' k') as [E3 E4]; [lia|lia|].
    rewrite E1, E2, E3, E4 in H.
    rewrite (finite_to_R _ (Hf [e; n; k; c])),
      (finite_to_R _ (Hf [e; n'; k'; c])). now f_equal.
  - intros H i j c Hi Hj Hc. f_equal.
    pose proof (Nat.div_mod_eq i 3). pose proof (Nat.div_mod_eq j 3).
    pose proof (Nat.mod_upper_bound i 3 ltac:(lia)).
    pose proof (Nat.mod_upper_bound j 3 ltac:(lia)).
    apply H; lia.
Qed.

(** C10 (amended).  Scaling the finite atom coordinates of a structure by 2,
    which doubles every pairwise distance, doubles the diversity term: the
    term is the mean [v] of the pairwise distances of the atoms, a
    non-negative number, and becomes [2 v].  It is positive exactly when not
    all atoms of the example sit at one point, and the scaled term is
    greater than the term exactly then. *)
Theorem diversity_doubles_under_scaling (p : tensor) (B N e : nat) :
  shape p = [B; N; 3; 3]%nat -> all_finite p ->
  (0 < N)%nat -> (e < B)%nat ->
  exists d d2 v,
    diversity_reward p = Ok d /\ diversity_reward (scale 2 p) = Ok d2 /\
    v = pairwise_mean_R
          (fun i c => to_R (get p [e; (i / 3)%nat; (i mod 3)%nat; c]))
          (N * 3) /\
    get d [e] = Fin v /\ get d2 [e] = Fin (2 * v) /\
    0 <= v /\
    (0 < v <->
     ~ (forall n k n' k' c,
          (n < N)%nat -> (k < 3)%nat -> (n' < N)%nat -> (k' < 3)%nat ->
          (c < 3)%nat ->
          get p [e; n; k; c] = get p [e; n'; k'; c])) /\
    (ltb (get d [e]) (get d2 [e]) = true <-> 0 < v).
Proof.
  intros Hs Hf HN He.
  destruct (diversity_reward_finite p B N e Hs Hf HN He) as (d & Hd & Hg).
  destruct (diversity_reward_finite (scale 2 p) B N e Hs
              (all_finite_scale 2 p Hf) HN He) as (d2 & Hd2 & Hg2).
  set (r := fun i c => to_R (get p [e; (i / 3)%nat; (i mod 3)%nat; c])) in *.
  assert (Hg2' : get d2 [e] = Fin (2 * pairwise_mean_R r (N * 3))).
  { rewrite Hg2. f_equal. rewrite <- pairwise_mean_R_scale.
    apply pairwise_mean_R_ext. intros i j c _ _ _.
    unfold r. now rewrite !to_R_scale. }
  pose proof (pairwise_mean_R_nonneg r (N * 3)) as Hn.
  pose proof (pairwise_mean_R_zero r (N * 3) ltac:(lia)) as Hz.
  pose proof (atoms_coincide_layout p N e Hf) as Hl. fold r in Hl.
  exists d, d2, (pairwise_mean_R r (N * 3)).
  split; [exact Hd|]. split; [exact Hd2|]. split; [reflexivity|].
  split; [exact Hg|]. split; [exact Hg2'|]. split; [exact Hn|]. split.
  - split.
    + intros Hpos Hall. pose proof (proj2 Hz (proj2 Hl Hall)). lra.
    + intros Hnot.
      destruct (Rle_lt_or_eq_dec _ _ Hn) as [Hlt|Heq]; [exact Hlt|].
      elim Hnot. apply (proj1 Hl), (proj1 Hz). now symmetry.
  - rewrite Hg, Hg2'. cbn [ltb]. unfold Rltb.
    destruct (Rlt_dec (pairwise_mean_R r (N * 3))
                (2 * pairwise_mean_R r (N * 3))); split; intros H;
      trivial; try discriminate; try lra.
Qed.

Lemma diversity_doubles_under_scaling_witness :
  exists d d2 v,
    diversity_reward spread_atoms = Ok d /\
    diversity_reward (scale 2 spread_atoms) = Ok d2 /\
    v = pairwise_mean_R
          (fun i c =>
             to_R (get spread_atoms [0%nat; (i / 3)%nat; (i mod 3)%nat; c]))
          (1 * 3) /\
    get d [0%nat] = Fin v /\ get d2 [0%nat] = Fin (2 * v) /\
    0 <= v /\
    (0 < v <->
     ~ (forall n k n' k' c,
          (n < 1)%nat -> (k < 3)%nat -> (n' < 1)%nat -> (k' < 3)%nat ->
          (c < 3)%nat ->
          get spread_atoms [0%nat; n; k; c]
          = get spread_atoms [0%nat; n'; k'; c])) /\
    (ltb (get d [0%nat]) (get d2 [0%nat]) = true <-> 0 < v).
Proof.
  apply (diversity_doubles_under_scaling spread_atoms 1 1 0).
  - reflexivity.
  - intros idx. reflexivity.
  - lia.
  - lia.
Defined.

(** On [spread_atoms], whose atoms are apart, the diversity term is
    positive and the scaling increases it. *)
Lemma diversity_of_spread_atoms_increases :
  exists d d2,
    diversity_reward spread_atoms = Ok d /\
    diversity_reward (scale 2 spread_atoms) = Ok d2 /\
    ltb (Fin 0) (get d [0%nat]) = true /\
    ltb (get d [0%nat]) (get d2 [0%nat]) = true.
Proof.
  destruct (diversity_scale_finite spread_atoms 1 1 0)
    as (d & d2 & Hd & Hd2 & Hv & Hv2);
    [reflexivity|intros idx; reflexivity|lia|lia|].
  set (r := fun i c => to_R (atom spread_atoms 1 1 0 i c)) in *.
  assert (Hpos : 0 < pairwise_mean_R r (1 * 3)).
  { destruct (Rle_lt_or_eq_dec _ _ (pairwise_mean_R_nonneg r (1 * 3)))
      as [Hlt|Heq]; [exact Hlt|].
    symmetry in Heq.
    pose proof (proj1 (pairwise_mean_R_zero r (1 * 3) ltac:(lia)) Heq
                  0%nat 1%nat 0%nat ltac:(lia) ltac:(lia) ltac:(lia)) as Hq.
    clear Heq. rename Hq into Heq.
    unfold r in Heq. rewrite !atom_layout in Heq by lia.
    cbn in Heq. lra. }
  exists d, d2. split; [exact Hd|]. split; [exact Hd2|].
  rewrite Hv, Hv2. cbn [ltb]. split; apply Rltb_true; lra.
Qed.

(** C10 as stated fails: when all atoms coincide, every pairwise distance
    is 0 and stays 0 when doubled, and the diversity term is 0 before and
    after the scaling. *)
Lemma diversity_of_coincident_atoms_does_not_increase :
  exists d d2,
    diversity_reward coincident_atoms = Ok d /\
    diversity_reward (scale 2 coincident_atoms) = Ok d2 /\
    get d [0%nat] = Fin 0 /\ get d2 [0%nat] = Fin 0 /\
    ltb (get d [0%nat]) (get d2 [0%nat]) = false.
Proof.
  destruct (diversity_scale_finite coincident_atoms 1 1 0)
    as (d & d2 & Hd & Hd2 & Hv & Hv2);
    [reflexivity|intros idx; reflexivity|lia|lia|].
  rewrite pairwise_mean_R_coincident in Hv, Hv2 by reflexivity.
  replace (2 * 0) with 0 in Hv2 by ring.
  exists d, d2. repeat split; trivial.
  rewrite Hv, Hv2. cbn. apply Rltb_false. lra.
Qed.

(* ----------------------------------------------------------------- *)
(** *** The noise schedule at and beyond the ends of the time interval *)

(** Evaluation of the comparisons on concrete reals. *)
Ltac num_eval :=
  repeat first
    [ progress cbn
    | progress unfold inf_of_sign, mul_inf
    | rewrite Reqb_true by lra
    | rewrite Reqb_false by lra
    | rewrite Rltb_true by lra
    | rewrite Rltb_false by lra ].

Lemma eta_nonzero_time (t : R) :
  t <> 0 ->
  mul (sub (Fin 1) (Fin t))
      (sub (mul (div one (Fin t)) (sub (Fin 1) (Fin t))) (neg one))
  = Fin ((1 - t) / t).
Proof.
  intros Ht. cbn. rewrite Reqb_false by exact Ht. cbn. f_equal. now field.
Qed.

Lemma eta_zero_time :
  mul (sub (Fin 1) (Fin 0))
      (sub (mul (div one (Fin 0)) (sub (Fin 1) (Fin 0))) (neg one))
  = PInf.
Proof.
  num_eval. reflexivity.
Qed.

Lemma ratio_negative (t : R) :
  t <> 0 -> ((1 - t) / t < 0 <-> t < 0 \/ 1 < t).
Proof.
  intros Ht. unfold Rdiv.
  destruct (Rlt_dec 0 t) as [Hp|Hn].
  - pose proof (Rinv_0_lt_compat t Hp) as Hi. split.
    + intros H. right.
      destruct (Rlt_dec 1 t); [trivial|].
      assert (0 <= (1 - t) * / t) by (apply Rmult_le_pos; lra). lra.
    + intros [H|H]; [lra|].
      replace ((1 - t) * / t) with (- ((t - 1) * / t)) by ring.
      assert (0 < (t - 1) * / t) by (apply Rmult_lt_0_compat; lra). lra.
  - assert (Hlt : t < 0) by lra.
    pose proof (Rinv_lt_0_compat t Hlt) as Hi. split; [now left|].
    intros _.
    replace ((1 - t) * / t) with (- ((1 - t) * - / t)) by ring.
    assert (0 < (1 - t) * - / t) by (apply Rmult_lt_0_compat; lra). lra.
Qed.

(** X11.  The schedule raises no error at any finite time: at time 0 the
    division by [alpha = 0] makes [sigma] infinite, at time 1 [sigma] is 0,
    and [sigma] is NaN exactly at the times below 0 or above 1. *)
Theorem sigma_at_and_beyond_the_ends (r3_t : tensor) (idx : list nat) (t : R) :
  in_range idx (shape r3_t) ->
  get r3_t idx = Fin t ->
  exists sigma,
    sigma_of r3_t = Ok sigma /\
    (t = 0 -> get sigma idx = PInf) /\
    (t = 1 -> get sigma idx = Fin 0) /\
    (get sigma idx = NaN <-> t < 0 \/ 1 < t).
Proof.
  intros Hr Hg.
  destruct (eta_of_entry r3_t) as (eta & Heta & _ & He).
  exists (map1 sqrt (map1 (mul (Fin 2)) eta)).
  split; [unfold sigma_of; now rewrite Heta|].
  cbn [map1 get]. rewrite (He idx Hr), Hg.
  destruct (Req_dec_T t 0) as [->|Ht].
  - rewrite eta_zero_time. num_eval.
    split; [reflexivity|]. split; [lra|].
    split; [discriminate|lra].
  - rewrite (eta_nonzero_time t Ht). cbn [mul sqrt].
    pose proof (ratio_negative t Ht) as Hneg.
    unfold Rltb. destruct (Rlt_dec (2 * ((1 - t) / t)) 0) as [Hlt|Hge].
    + split; [lra|]. split.
      * intros ->. exfalso. unfold Rdiv in Hlt. lra.
      * split; [intros _; apply Hneg; lra|reflexivity].
    + split; [lra|]. split.
      * intros ->. f_equal. unfold Rdiv.
        replace (2 * ((1 - 1) * / 1)) with 0 by (field). apply sqrt_0.
      * split; [discriminate|]. intros H. apply Hneg in H. lra.
Qed.

Lemma sigma_at_and_beyond_the_ends_witness :
  exists sigma,
    sigma_of (full [1; 1]%nat (Fin 0)) = Ok sigma /\
    (0 = 0 -> get sigma [0; 0]%nat = PInf) /\
    (0 = 1 -> get sigma [0; 0]%nat = Fin 0) /\
    (get sigma [0; 0]%nat = NaN <-> 0 < 0 \/ 1 < 0).
Proof.
  apply (sigma_at_and_beyond_the_ends (full [1; 1]%nat (Fin 0))
           [0; 0]%nat 0).
  - in_range_tac.
  - reflexivity.
Defined.

(* ----------------------------------------------------------------- *)
(** *** The solver never returns *)

(** X12.  The solver returns no costate, whatever the drift, the state, the
    time and the mask are.  Every pass through the loop ends by rebuilding
    [curr_x] under [torch.no_grad()], so the second pass, if the first one
    is completed, raises when it asks the engine for the gradient with
    respect to [curr_x]; and the loop has 19 passes. *)
Theorem solve_adjoint_state_never_returns
    (drift : tensor -> tensor -> result tensor)
    (drift_grad : tensor -> tensor -> tensor -> option (list nat -> num))
    (x_t t mask : tensor) :
  exists e, solve_adjoint_state drift drift_grad x_t t mask = Err e.
Proof. apply solve_adjoint_state_is_error. Qed.

Lemma first_time_is_one : 1 + INR 0 * ((0 - 1) / INR (20 - 1)) = 1.
Proof. cbn [INR]. ring. Qed.

(** X13.  Where the shapes are accepted ([N] and [B] each 1 or 3), the
    drift returns tensors of the shape of the state and the engine
    differentiates it in the first pass, that pass is completed, with the
    costate [(a - dt * e) * mask] where [e] contracts the gradient against
    the terminal costate, and the second pass raises the error of the
    differentiation primitive: no costate is returned. *)
Theorem solve_adjoint_state_raises_in_second_pass
    (drift : tensor -> tensor -> result tensor)
    (drift_grad : tensor -> tensor -> tensor -> option (list nat -> num))
    (B N : nat) (x_t t mask : tensor) (g : list nat -> num) :
  shape x_t = [B; N; 3%nat] -> shape mask = [B; N] ->
  N = 1%nat \/ N = 3%nat -> B = 1%nat \/ B = 3%nat ->
  (forall x tc, shape x = [B; N; 3%nat] -> shape tc = shape t ->
     exists d, drift x tc = Ok d /\ shape d = [B; N; 3%nat]) ->
  drift_grad x_t (expand_as (Fin 1) t) mask = Some g ->
  exists a0 st1,
    tmul (map1 neg (ones_like x_t)) (unsqueeze_last mask) = Ok a0 /\
    adjoint_step drift drift_grad t mask dt (mkLoop a0 x_t true [a0]) (Fin 1)
    = Ok st1 /\
    (forall b n c, (b < B)%nat -> (n < N)%nat -> (c < 3)%nat ->
       get (a_t st1) [b; n; c]
       = mul (sub (get a0 [b; n; c])
                  (mul dt (contraction (mkT [B; N; 3%nat] g) a0 N b n
                             (bsel B c))))
             (get mask [b; n])) /\
    solve_adjoint_state drift drift_grad x_t t mask = Err GradError.
Proof.
  intros Hx Hm HN HB Hd Hg.
  destruct (initial_costate x_t mask B N Hx Hm) as (a0 & E0 & Ha0 & _).
  destruct (adjoint_step_on_clone drift drift_grad B N t mask Hm Hd
              (bdim_residues N HN) (bdim_examples B HB) dt
              (mkLoop a0 x_t true [a0]) (Fin 1) g Ha0 Hx eq_refl Hg)
    as (st1 & E1 & Ha1 & Hx1 & Hc1 & Hg1).
  exists a0, st1. split; [exact E0|]. split; [exact E1|]. split.
  - intros b n c Hb Hn Hc. rewrite (Hg1 b n c Hb Hn Hc).
    cbn [a_t curr_x]. now rewrite Hx.
  - unfold solve_adjoint_state. rewrite E0; cbn [bind]. rewrite loop_times.
    change (seq 0 19) with (0%nat :: 1%nat :: seq 2 17).
    cbn [map adjoint_loop]. rewrite first_time_is_one, E1; cbn [bind].
    now rewrite (adjoint_step_grad_error drift drift_grad B N t mask Hm Hd
                   dt st1 _ Hx1 Hc1).
Qed.

Lemma solve_adjoint_state_raises_in_second_pass_witness :
  exists a0 st1,
    tmul (map1 neg (ones_like (full [1; 3; 3]%nat (Fin 0))))
         (unsqueeze_last mask_last_out) = Ok a0 /\
    adjoint_step zero_drift zero_drift_grad t_half mask_last_out dt
      (mkLoop a0 (full [1; 3; 3]%nat (Fin 0)) true [a0]) (Fin 1)
    = Ok st1 /\
    (forall b n c, (b < 1)%nat -> (n < 3)%nat -> (c < 3)%nat ->
       get (a_t st1) [b; n; c]
       = mul (sub (get a0 [b; n; c])
                  (mul dt (contraction (mkT [1; 3; 3]%nat (fun _ => Fin 0))
                             a0 3 b n (bsel 1 c))))
             (get mask_last_out [b; n])) /\
    solve_adjoint_state zero_drift zero_drift_grad
      (full [1; 3; 3]%nat (Fin 0)) t_half mask_last_out
    = Err GradError.
Proof.
  apply (solve_adjoint_state_raises_in_second_pass zero_drift zero_drift_grad
           1 3 (full [1; 3; 3]%nat (Fin 0)) t_half mask_last_out
           (fun _ => Fin 0)).
  - reflexivity.
  - reflexivity.
  - right; reflexivity.
  - left; reflexivity.
  - apply zero_drift_shape.
  - reflexivity.
Defined.

(** X14.  When the engine refuses the gradient in the first pass, as it
    does for a state that carries no gradient or for a drift such as
    [torch.zeros_like(x)] whose output is not connected to the state, the
    solver raises in the first pass, before the [einsum], whatever [B] and
    [N] are. *)
Theorem solve_adjoint_state_raises_without_gradient
    (drift : tensor -> tensor -> result tensor)
    (drift_grad : tensor -> tensor -> tensor -> option (list nat -> num))
    (B N : nat) (x_t t mask : tensor) :
  shape x_t = [B; N; 3%nat] -> shape mask = [B; N] ->
  (forall x tc, shape x = [B; N; 3%nat] -> shape tc = shape t ->
     exists d, drift x tc = Ok d /\ shape d = [B; N; 3%nat]) ->
  drift_grad x_t (expand_as (Fin 1) t) mask = None ->
  solve_adjoint_state drift drift_grad x_t t mask = Err GradError.
Proof.
  intros Hx Hm Hd Hg.
  destruct (initial_costate x_t mask B N Hx Hm) as (a0 & E0 & Ha0 & _).
  unfold solve_adjoint_state. rewrite E0; cbn [bind]. rewrite loop_times.
  change (seq 0 19) with (0%nat :: seq 1 18).
  cbn [map adjoint_loop]. rewrite first_time_is_one.
  now rewrite (adjoint_step_refused drift drift_grad B N t mask Hm Hd dt
                 (mkLoop a0 x_t true [a0]) (Fin 1) Hx Hg).
Qed.

Lemma solve_adjoint_state_raises_without_gradient_witness :
  solve_adjoint_state zero_drift no_gradient
    (full [2; 5; 3]%nat (Fin 0)) (full [2; 1]%nat (Fin (1 / 2)))
    (full [2; 5]%nat (Fin 1))
  = Err GradError.
Proof.
  apply (solve_adjoint_state_raises_without_gradient zero_drift no_gradient
           2 5 (full [2; 5; 3]%nat (Fin 0)) (full [2; 1]%nat (Fin (1 / 2)))
           (full [2; 5]%nat (Fin 1))).
  - reflexivity.
  - reflexivity.
  - apply zero_drift_shape.
  - reflexivity.
Defined.

(* ----------------------------------------------------------------- *)
(** *** The solver on a rotation state *)

(** X16.  On a rotation state, of shape [(B, N, 3, 3)], the solver fails
    before its loop: the terminal costate is masked with [mask[..., None]],
    of shape [(B, N, 1)], which lines the residue axis of the mask up with a
    matrix axis of the state, so the product is refused unless [N] is 1 or 3
    and [B] is [N] or one of them is 1. *)
Theorem solve_adjoint_state_fails_on_rotations
    (drift : tensor -> tensor -> result tensor)
    (drift_grad : tensor -> tensor -> tensor -> option (list nat -> num))
    (x_t t mask : tensor) (B N : nat) :
  shape x_t = [B; N; 3; 3]%nat -> shape mask = [B; N] ->
  (N <> 1%nat /\ N <> 3%nat) \/ (B <> N /\ B <> 1%nat /\ N <> 1%nat) ->
  solve_adjoint_state drift drift_grad x_t t mask = Err ShapeError.
Proof.
  intros Hx Hm Hno. unfold solve_adjoint_state, tmul, map2, unsqueeze_last.
  cbn [map1 ones_like shape]. rewrite Hx, Hm.
  unfold broadcast_shapes. cbn.
  destruct Hno as [[H1 H3]|(H1 & H2 & H3)].
  - rewrite (bdim_mismatch 3 N) by lia. now destruct (bdim N B).
  - rewrite (bdim_mismatch N B) by lia. reflexivity.
Qed.

Lemma solve_adjoint_state_fails_on_rotations_witness :
  solve_adjoint_state zero_drift zero_drift_grad
    (full [2; 5; 3; 3]%nat (Fin 0)) (full [2; 1]%nat (Fin (1 / 2)))
    (full [2; 5]%nat (Fin 1))
  = Err ShapeError.
Proof.
  apply (solve_adjoint_state_fails_on_rotations zero_drift zero_drift_grad
           (full [2; 5; 3; 3]%nat (Fin 0)) (full [2; 1]%nat (Fin (1 / 2)))
           (full [2; 5]%nat (Fin 1)) 2 5).
  - reflexivity.
  - reflexivity.
  - left. lia.
Defined.

(* ----------------------------------------------------------------- *)
(** *** [training_step]: self-conditioning and motif size *)

(** X17.  The self-conditioning translations of [training_step] are the
    prediction of the network on the diffused residues (mask 1) and the
    ground truth on the motif residues (mask 0), for finite predictions and
    ground truth. *)
Theorem self_condition_keeps_motif
    (pred_trans trans_1 diffuse_mask : tensor) (B N b n c : nat) :
  shape pred_trans = [B; N; 3%nat] -> shape trans_1 = [B; N; 3%nat] ->
  shape diffuse_mask = [B; N] ->
  is_finite (get pred_trans [b; n; c]) = true ->
  is_finite (get trans_1 [b; n; c]) = true ->
  (b < B)%nat -> (n < N)%nat -> (c < 3)%nat ->
  exists sc,
    self_condition_trans pred_trans trans_1 diffuse_mask = Ok sc /\
    shape sc = [B; N; 3%nat] /\
    (get diffuse_mask [b; n] = Fin 1 ->
     get sc [b; n; c] = get pred_trans [b; n; c]) /\
    (get diffuse_mask [b; n] = Fin 0 ->
     get sc [b; n; c] = get trans_1 [b; n; c]).
Proof.
  intros Hp Ht Hm Fp Ft Hb Hn Hc. unfold self_condition_trans, tmul, tadd.
  destruct (map2_unsqueeze1 mul pred_trans diffuse_mask B N 3 Hp Hm)
    as (x & -> & Hxs & Hx); cbn [bind].
  destruct (map2_unsqueeze1 (fun u v => mul u (sub (Fin 1) v))
              trans_1 diffuse_mask B N 3 Ht Hm) as (y & Hy0 & Hys & Hy).
  assert (Hy1 : map2 mul trans_1 (map1 (sub (Fin 1))
                                    (unsqueeze_last diffuse_mask)) = Ok y).
  { unfold map2 in *. cbn [map1 shape get] in *.
    destruct (broadcast_shapes (shape trans_1)
                (shape (unsqueeze_last diffuse_mask))); [exact Hy0|exact Hy0]. }
  rewrite Hy1; cbn [bind].
  destruct (map2_same_shape add x y) as (sc & -> & Hss & Hsg);
    [congruence|].
  exists sc. split; [reflexivity|]. split; [congruence|].
  rewrite Hsg by (rewrite Hxs; in_range_tac).
  rewrite Hx, Hy by trivial.
  rewrite (finite_to_R _ Fp), (finite_to_R _ Ft).
  split; intros ->; cbn; f_equal; ring.
Qed.

Lemma self_condition_keeps_motif_witness :
  exists sc,
    self_condition_trans (full [1; 3; 3]%nat (Fin 7))
      (full [1; 3; 3]%nat (Fin 2)) mask_last_out = Ok sc /\
    shape sc = [1; 3; 3]%nat /\
    (get mask_last_out [0; 2]%nat = Fin 1 ->
     get sc [0; 2; 1]%nat = get (full [1; 3; 3]%nat (Fin 7)) [0; 2; 1]%nat) /\
    (get mask_last_out [0; 2]%nat = Fin 0 ->
     get sc [0; 2; 1]%nat = get (full [1; 3; 3]%nat (Fin 2)) [0; 2; 1]%nat).
Proof.
  apply (self_condition_keeps_motif (full [1; 3; 3]%nat (Fin 7))
           (full [1; 3; 3]%nat (Fin 2)) mask_last_out 1 3 0 2 1);
    try reflexivity; lia.
Defined.

Lemma Rsum_complement (A : Type) (f : A -> R) (l : list A) :
  Rsum (map (fun x => 1 - f x) l) = INR (length l) - Rsum (map f l).
Proof.
  induction l as [|x l IH].
  - cbn [map length INR]. rewrite Rsum_nil. lra.
  - cbn [map length]. rewrite !Rsum_cons, IH, S_INR. lra.
Qed.

(** X18.  The motif size that [training_step] reports for an example is its
    number of residues minus the sum of its diffused mask: for a 0/1 mask,
    the number of residues that are not diffused. *)
Theorem motif_size_complements_diffused
    (diffuse_mask : tensor) (B N b : nat) :
  shape diffuse_mask = [B; N] -> all_finite diffuse_mask -> (b < B)%nat ->
  shape (num_motif_res diffuse_mask) = [B] /\
  get (num_motif_res diffuse_mask) [b]
  = Fin (INR N - valid_count_R diffuse_mask N b).
Proof.
  intros Hs Hf Hb.
  destruct (sum_last_matrix (motif_mask_of diffuse_mask) B N Hs) as [H1 H2].
  unfold num_motif_res. split; [exact H1|]. rewrite H2.
  rewrite (sum_list_Fin_ext nat _
             (fun n => 1 - to_R (get diffuse_mask [b; n]))).
  - f_equal. unfold valid_count_R.
    rewrite (Rsum_complement nat (fun n => to_R (get diffuse_mask [b; n]))).
    now rewrite length_seq.
  - intros n _. cbn [motif_mask_of map1 get].
    rewrite (finite_to_R _ (Hf [b; n])). reflexivity.
Qed.

Lemma motif_size_complements_diffused_witness :
  shape (num_motif_res mask_last_out) = [1%nat] /\
  get (num_motif_res mask_last_out) [0%nat]
  = Fin (INR 3 - valid_count_R mask_last_out 3 0).
Proof.
  apply (motif_size_complements_diffused mask_last_out 1 3 0).
  - reflexivity.
  - intros idx. cbn. destruct idx as [|? [|[|[|[|?]]] [|? ?]]]; reflexivity.
  - lia.
Defined.

(* ----------------------------------------------------------------- *)
(** *** The lazily created directories *)

(** X19.  Once [checkpoint_dir] has returned a directory, every later read
    returns the same directory without a broadcast and without creating
    anything, whatever the distributed state and the configuration have
    become. *)
Theorem checkpoint_dir_is_cached (path : Type)
    (env env' : dist_env path) (dirpath dirpath' : option path)
    (s s' : dir_cache path) (p : path) (eff : list (effect path)) :
  checkpoint_dir env dirpath s = (Dir p, s', eff) ->
  checkpoint_dir env' dirpath' s' = (Dir p, s', []).
Proof.
  unfold checkpoint_dir. destruct (_checkpoint_dir s) as [q|] eqn:E.
  - intros [= -> <- _]. now rewrite E.
  - destruct (resolve_dir env dirpath) as [[q|] ef]; [|discriminate].
    intros [= -> <- _]. reflexivity.
Qed.

Lemma checkpoint_dir_is_cached_witness :
  checkpoint_dir (mkDist true 0 (Some 9%nat)) (Some 4%nat)
    (mkDirs (Some 9%nat) None)
  = (Dir 9%nat, mkDirs (Some 9%nat) None, []).
Proof.
  apply (checkpoint_dir_is_cached nat
           (mkDist false 0 None) (mkDist true 0 (Some 9%nat))
           (Some 9%nat) (Some 4%nat)
           (mkDirs None None) (mkDirs (Some 9%nat) None) 9%nat
           [Makedirs 9%nat]).
  reflexivity.
Defined.

(** X20.  The same holds of [inference_dir], and reading one of the two
    directories leaves the cache of the other as it was. *)
Theorem inference_dir_is_cached (path : Type)
    (env env' : dist_env path) (dirpath dirpath' : option path)
    (s s' : dir_cache path) (p : path) (eff : list (effect path)) :
  inference_dir env dirpath s = (Dir p, s', eff) ->
  inference_dir env' dirpath' s' = (Dir p, s', []) /\
  _checkpoint_dir s' = _checkpoint_dir s.
Proof.
  unfold inference_dir. destruct (_inference_dir s) as [q|] eqn:E.
  - intros [= -> <- _]. now rewrite E.
  - destruct (resolve_dir env dirpath) as [[q|] ef]; [|discriminate].
    intros [= -> <- _]. split; reflexivity.
Qed.

Lemma inference_dir_is_cached_witness :
  inference_dir (mkDist true 0 (Some 9%nat)) (Some 4%nat)
    (mkDirs (Some 1%nat) (Some 9%nat))
  = (Dir 9%nat, mkDirs (Some 1%nat) (Some 9%nat), []) /\
  _checkpoint_dir (mkDirs (Some 1%nat) (Some 9%nat))
  = _checkpoint_dir (mkDirs (Some 1%nat) None).
Proof.
  apply (inference_dir_is_cached nat
           (mkDist false 0 None) (mkDist true 0 (Some 9%nat))
           (Some 9%nat) (Some 4%nat)
           (mkDirs (Some 1%nat) None) (mkDirs (Some 1%nat) (Some 9%nat)) 9%nat
           [Makedirs 9%nat]).
  reflexivity.
Defined.

(** X21.  In a distributed run all ranks use the directory configured on
    rank 0: on their first read, rank 0 and a process of another rank whose
    broadcast delivers the object of rank 0 return the same directory and
    each creates it once, after the broadcast; the other process ignores its
    own configuration. *)
Theorem ranks_agree_on_checkpoint_dir (path : Type)
    (env0 env1 : dist_env path) (dirpath1 : option path)
    (inf0 inf1 : option path) (p : path) :
  is_initialized env0 = true -> get_rank env0 = 0%nat ->
  is_initialized env1 = true -> get_rank env1 <> 0%nat ->
  rank0_object env1 = Some p ->
  checkpoint_dir env0 (Some p) (mkDirs None inf0)
  = (Dir p, mkDirs (Some p) inf0, [Broadcast (Some p); Makedirs p]) /\
  checkpoint_dir env1 dirpath1 (mkDirs None inf1)
  = (Dir p, mkDirs (Some p) inf1, [Broadcast None; Makedirs p]).
Proof.
  intros Hi0 Hr0 Hi1 Hr1 H0. unfold checkpoint_dir, resolve_dir. cbn.
  rewrite Hi0, Hi1, Hr0. cbn.
  destruct (Nat.eqb_spec (get_rank env1) 0); [easy|].
  now rewrite H0.
Qed.

Lemma ranks_agree_on_checkpoint_dir_witness :
  checkpoint_dir (mkDist true 0 (Some 7%nat)) (Some 7%nat) (mkDirs None None)
  = (Dir 7%nat, mkDirs (Some 7%nat) None,
     [Broadcast (Some 7%nat); Makedirs 7%nat]) /\
  checkpoint_dir (mkDist true 2 (Some 7%nat)) (Some 9%nat) (mkDirs None None)
  = (Dir 7%nat, mkDirs (Some 7%nat) None, [Broadcast None; Makedirs 7%nat]).
Proof.
  apply (ranks_agree_on_checkpoint_dir nat
           (mkDist true 0 (Some 7%nat)) (mkDist true 2 (Some 7%nat))
           (Some 9%nat) None None 7%nat).
  - reflexivity.
  - reflexivity.
  - reflexivity.
  - discriminate.
  - reflexivity.
Defined.
